(** * A shallow embedding of the 2-d tree of [tree.py]

    The Python module keeps a binary tree of [KDNode] objects.  Every node
    stores a point (a pair of numbers), an opaque payload and two optional
    children; the split axis of a node is never stored but recomputed from
    its depth as [depth % 2].

    Modelling choices.
    - Coordinates are Python integers, as in the test-suite of the
      repository; they are modelled by [Z].  Apart from the distance of
      the nearest-neighbour search, all the tree does with coordinates is
      to compare them with [<], [<=] and [==], and these are exact.
    - The bounds of a query rectangle are numbers as well, but may be
      [float('-inf')] or [float('inf')]; they are modelled by [ext].
    - [math.sqrt] is modelled twice.  In the first part a distance is kept
      as [Dsqrt s], the non-negative real whose square is [s], or [Dinf]
      for [float('inf')], and distances are compared as real numbers: no
      rounding and no overflow.  This serves what does not depend on
      rounding: that the queries write to no node, the order of the visits,
      and searches on small integers.  Module [Double] gives the search on
      the binary64 numbers Python computes, with the rounding of the
      conversion and of the square root and with [OverflowError]; what is
      stated about the node and the distance that the search returns is
      stated there.
    - Children are exclusively owned by their parent, so the object graph
      is described by an inductive tree (first part of the file).  The
      second part models the object store itself, with references, for the
      statements that are about mutation and about equal trees stored in
      different objects. *)

From stdpp Require Import base numbers option list gmap strings.
From Stdlib Require Import ZArith Lia Permutation Sorted.
From Stdlib Require SpecFloat.

Open Scope Z_scope.

(** ** Points, axes and numbers *)

Definition point : Type := Z * Z.

(** [p[axis]] for [axis = depth % 2]; only [0] and [1] ever occur. *)
Definition coord (axis : nat) (p : point) : Z :=
  match axis with
  | O => fst p
  | _ => snd p
  end.

(** [node.point == point]: value equality of tuples. *)
Definition point_eqb (p q : point) : bool :=
  (fst p =? fst q) && (snd p =? snd q).

(** A number that may be infinite, for the corners of a rectangle. *)
Inductive ext : Type :=
| NegInf : ext
| Fin : Z -> ext
| PosInf : ext.

(** [a <= b] on numbers that may be infinite. *)
Definition ext_leb (a b : ext) : bool :=
  match a, b with
  | NegInf, _ => true
  | _, PosInf => true
  | Fin x, Fin y => x <=? y
  | _, _ => false
  end.

Definition ext_le (a b : ext) : Prop := ext_leb a b = true.

Definition qpoint : Type := ext * ext.

Definition qcoord (axis : nat) (p : qpoint) : ext :=
  match axis with
  | O => fst p
  | _ => snd p
  end.

(** [min_point[0] <= p[0] <= max_point[0] and min_point[1] <= p[1] <= max_point[1]] *)
Definition in_rect (min_point max_point : qpoint) (p : point) : bool :=
  ext_leb (fst min_point) (Fin (fst p)) && ext_leb (Fin (fst p)) (fst max_point)
  && (ext_leb (snd min_point) (Fin (snd p)) && ext_leb (Fin (snd p)) (snd max_point)).

(** Some component of [min_point] is strictly greater than the same
    component of [max_point]. *)
Definition inverted (min_point max_point : qpoint) : Prop :=
  ext_leb (fst min_point) (fst max_point) = false
  \/ ext_leb (snd min_point) (snd max_point) = false.

(** The rectangle [(-inf, -inf) .. (inf, inf)]. *)
Definition unbounded_min : qpoint := (NegInf, NegInf).
Definition unbounded_max : qpoint := (PosInf, PosInf).

(** ** Distances, with exact square roots

    [Dsqrt s] stands for the real number whose square is [s]: nothing is
    rounded and nothing overflows.  Python computes with binary64 numbers
    instead; that arithmetic is in module [Double] below, and the two agree
    on the small integers of the concrete searches of this file. *)

Inductive dist : Type :=
| Dinf : dist
| Dsqrt : Z -> dist.

(** [math.sqrt((p[0] - t[0])**2 + (p[1] - t[1])**2)] *)
Definition sqdist (p t : point) : Z :=
  (fst p - fst t) ^ 2 + (snd p - snd t) ^ 2.

Definition euclid (p t : point) : dist := Dsqrt (sqdist p t).

(** [d1 < d2] on distances. *)
Definition dist_ltb (d1 d2 : dist) : bool :=
  match d1, d2 with
  | Dinf, _ => false
  | Dsqrt _, Dinf => true
  | Dsqrt a, Dsqrt b => a <? b
  end.

Definition dist_leb (d1 d2 : dist) : bool := negb (dist_ltb d2 d1).

(** [abs(a) < d] for an integer [a] and a distance [d]. *)
Definition abs_ltb (a : Z) (d : dist) : bool :=
  match d with
  | Dinf => true
  | Dsqrt b => Z.abs a * Z.abs a <? b
  end.

(** ** The tree *)

Section KDTree.

Context {Data : Type}.

(** [Optional[KDNode]]: [Nil] is Python's [None]. *)
Inductive KDNode : Type :=
| Nil : KDNode
| Node : point -> Data -> KDNode -> KDNode -> KDNode.

Record KDTree : Type := mkTree { root : KDNode }.

Definition empty_tree : KDTree := mkTree Nil.

(** *** Insertion *)

Fixpoint _insert_recursive (node : KDNode) (pt : point) (data : Data)
    (depth : nat) : KDNode :=
  match node with
  | Nil => Node pt data Nil Nil
  | Node q e l r =>
      let axis := (depth mod 2)%nat in
      if coord axis pt <? coord axis q
      then Node q e (_insert_recursive l pt data (depth + 1)) r
      else Node q e l (_insert_recursive r pt data (depth + 1))
  end.

Definition insert (t : KDTree) (pt : point) (data : Data) : KDTree :=
  mkTree (_insert_recursive (root t) pt data 0).

(** *** Minimum along an axis

    The result is the node found, given by its point and payload (the only
    fields the caller reads).  [None] stands for the [ValueError] raised on
    an absent node; it also is the value the source gives to [left_min] and
    [right_min] for an absent child. *)

Definition pick_min (axis : nat) (cand : option (point * Data))
    (min_node : point * Data) : point * Data :=
  match cand with
  | Some c => if coord axis (fst c) <? coord axis (fst min_node) then c else min_node
  | None => min_node
  end.

Fixpoint _find_min (node : KDNode) (axis : nat) : option (point * Data) :=
  match node with
  | Nil => None
  | Node q e l r =>
      match axis with
      | O =>
          match l with
          | Nil => Some (q, e)
          | Node _ _ _ _ => _find_min l axis
          end
      | _ =>
          let left_min := _find_min l axis in
          let right_min := _find_min r axis in
          let min_node := (q, e) in
          let min_node := pick_min axis left_min min_node in
          let min_node := pick_min axis right_min min_node in
          Some min_node
      end
  end.

(** *** Deletion

    [None] is an exception escaping from [_find_min]; the Boolean is the
    [deleted] flag. *)

Fixpoint _delete_recursive (node : KDNode) (pt : point) (depth : nat)
    : option (KDNode * bool) :=
  match node with
  | Nil => Some (Nil, false)
  | Node q e l r =>
      let axis := (depth mod 2)%nat in
      if point_eqb q pt then
        match l, r with
        | Nil, Nil => Some (Nil, true)
        | _, Node _ _ _ _ =>
            min_node ← _find_min r axis;
            res ← _delete_recursive r (fst min_node) (depth + 1);
            Some (Node (fst min_node) (snd min_node) l (fst res), true)
        | _, Nil =>
            min_node ← _find_min l axis;
            res ← _delete_recursive l (fst min_node) (depth + 1);
            Some (Node (fst min_node) (snd min_node) (fst res) r, true)
        end
      else if coord axis pt <? coord axis q then
        res ← _delete_recursive l pt (depth + 1);
        Some (Node q e (fst res) r, snd res)
      else
        res ← _delete_recursive r pt (depth + 1);
        Some (Node q e l (fst res), snd res)
  end.

Definition delete (t : KDTree) (pt : point) : option (KDTree * bool) :=
  res ← _delete_recursive (root t) pt 0;
  Some (mkTree (fst res), snd res).

(** *** Range search

    [result] is the list object shared by all recursive calls; a call
    returns the list as it is after the call. *)

Fixpoint _range_search_recursive (node : KDNode) (min_point max_point : qpoint)
    (depth : nat) (result : list (point * Data)) : list (point * Data) :=
  match node with
  | Nil => result
  | Node q e l r =>
      let result := if in_rect min_point max_point q then result ++ [(q, e)] else result in
      let axis := (depth mod 2)%nat in
      let result :=
        if ext_leb (qcoord axis min_point) (Fin (coord axis q))
        then _range_search_recursive l min_point max_point (depth + 1) result
        else result in
      if ext_leb (Fin (coord axis q)) (qcoord axis max_point)
      then _range_search_recursive r min_point max_point (depth + 1) result
      else result
  end.

Definition range_search (t : KDTree) (min_point max_point : qpoint)
    : list (point * Data) :=
  _range_search_recursive (root t) min_point max_point 0 [].

(** *** Nearest neighbour

    [best] is the three-element list [[point, data, distance]]; its first
    two slots are written together, so they are one optional pair. *)

Definition best_t : Type := option (point * Data) * dist.

Definition best_init : best_t := (None, Dinf).

Definition update_best (q : point) (e : Data) (target : point) (best : best_t)
    : best_t :=
  let distance := euclid q target in
  if dist_ltb distance (snd best) then (Some (q, e), distance) else best.

Fixpoint _nearest_neighbor_recursive (node : KDNode) (target : point)
    (depth : nat) (best : best_t) : best_t :=
  match node with
  | Nil => best
  | Node q e l r =>
      let best := update_best q e target best in
      let axis := (depth mod 2)%nat in
      if coord axis target <? coord axis q then
        let best := _nearest_neighbor_recursive l target (depth + 1) best in
        if abs_ltb (coord axis target - coord axis q) (snd best)
        then _nearest_neighbor_recursive r target (depth + 1) best
        else best
      else
        let best := _nearest_neighbor_recursive r target (depth + 1) best in
        if abs_ltb (coord axis target - coord axis q) (snd best)
        then _nearest_neighbor_recursive l target (depth + 1) best
        else best
  end.

(** [tuple(best) if best[0] is not None else None] *)
Definition best_result (best : best_t) : option (point * Data * dist) :=
  match fst best with
  | Some (p, d) => Some (p, d, snd best)
  | None => None
  end.

Definition nearest_neighbor (t : KDTree) (target : point)
    : option (point * Data * dist) :=
  match root t with
  | Nil => None
  | Node _ _ _ _ =>
      best_result (_nearest_neighbor_recursive (root t) target 0 best_init)
  end.

End KDTree.

Arguments KDNode : clear implicits.
Arguments KDTree : clear implicits.
Arguments best_t : clear implicits.

(** ** What a tree holds, and the partition invariant *)

Section Observations.

Context {Data : Type}.

(** All (point, payload) pairs of a subtree, node first, then left, then right. *)
Fixpoint nodes (node : KDNode Data) : list (point * Data) :=
  match node with
  | Nil => []
  | Node q e l r => (q, e) :: nodes l ++ nodes r
  end.

Definition points (node : KDNode Data) : list point := map fst (nodes node).

Fixpoint height (node : KDNode Data) : nat :=
  match node with
  | Nil => O
  | Node _ _ l r => S (Nat.max (height l) (height r))
  end.

(** The axis-alternating partition invariant of a subtree whose root is at
    depth [depth]. *)
Fixpoint kd_inv (node : KDNode Data) (depth : nat) : Prop :=
  match node with
  | Nil => True
  | Node q _ l r =>
      let axis := (depth mod 2)%nat in
      Forall (fun p => coord axis p < coord axis q) (points l)
      /\ Forall (fun p => coord axis q <= coord axis p) (points r)
      /\ kd_inv l (depth + 1) /\ kd_inv r (depth + 1)
  end.

(** The same, as a test that can be run. *)
Fixpoint kd_invb (node : KDNode Data) (depth : nat) : bool :=
  match node with
  | Nil => true
  | Node q _ l r =>
      let axis := (depth mod 2)%nat in
      forallb (fun p => coord axis p <? coord axis q) (points l)
      && forallb (fun p => coord axis q <=? coord axis p) (points r)
      && kd_invb l (depth + 1) && kd_invb r (depth + 1)
  end.

(** What one call of [_range_search_recursive] appends to [result]. *)
Fixpoint range_found (node : KDNode Data) (min_point max_point : qpoint)
    (depth : nat) : list (point * Data) :=
  match node with
  | Nil => []
  | Node q e l r =>
      let axis := (depth mod 2)%nat in
      (if in_rect min_point max_point q then [(q, e)] else [])
      ++ (if ext_leb (qcoord axis min_point) (Fin (coord axis q))
          then range_found l min_point max_point (depth + 1) else [])
      ++ (if ext_leb (Fin (coord axis q)) (qcoord axis max_point)
          then range_found r min_point max_point (depth + 1) else [])
  end.

(** Sequences of operations of the public interface. *)
Inductive op : Type :=
| Insert : point -> Data -> op
| Delete : point -> op.

Definition apply_op (t : KDTree Data) (o : op) : option (KDTree Data) :=
  match o with
  | Insert pt data => Some (insert t pt data)
  | Delete pt => fst <$> delete t pt
  end.

Fixpoint run_ops (ops : list op) (t : KDTree Data) : option (KDTree Data) :=
  match ops with
  | [] => Some t
  | o :: ops' => t' ← apply_op t o; run_ops ops' t'
  end.

(** [for point, data in items: tree.insert(point, data)] *)
Definition insert_all (items : list (point * Data)) (t : KDTree Data) : KDTree Data :=
  fold_left (fun t x => insert t (fst x) (snd x)) items t.

(** Trees built from the empty tree by inserts and deletes. *)
Definition reachable (t : KDTree Data) : Prop :=
  exists ops, run_ops ops empty_tree = Some t.

(** *** The visiting order of the nearest-neighbour search

    [_nn_trace] is [_nearest_neighbor_recursive] with a log: every node whose
    distance is computed is appended to the log, in the order of the calls. *)
Fixpoint _nn_trace (node : KDNode Data) (target : point) (depth : nat)
    (st : best_t Data * list (point * Data)) : best_t Data * list (point * Data) :=
  match node with
  | Nil => st
  | Node q e l r =>
      let st := (update_best q e target (fst st), snd st ++ [(q, e)]) in
      let axis := (depth mod 2)%nat in
      if coord axis target <? coord axis q then
        let st := _nn_trace l target (depth + 1) st in
        if abs_ltb (coord axis target - coord axis q) (snd (fst st))
        then _nn_trace r target (depth + 1) st
        else st
      else
        let st := _nn_trace r target (depth + 1) st in
        if abs_ltb (coord axis target - coord axis q) (snd (fst st))
        then _nn_trace l target (depth + 1) st
        else st
  end.

Definition nn_visits (t : KDTree Data) (target : point) : list (point * Data) :=
  snd (_nn_trace (root t) target 0 (best_init, [])).

End Observations.

Arguments op : clear implicits.

(** ** The object store

    Nodes are objects with identity; [insert] and [delete] assign to their
    fields.  The two queries allocate one list each ([result], [best]) and
    mutate it while they walk the nodes.  The store below holds node objects
    and these list objects side by side, so that a query is a computation
    that does write to the store. *)

Section Store.

Context {Data : Type}.

Definition loc : Type := positive.

Inductive obj : Type :=
| ONode : point -> Data -> option loc -> option loc -> obj
| OResult : list (point * Data) -> obj
| OBest : best_t Data -> obj.

(** A computation on the store; [None] is a run that gives no value: a
    reference to a missing object, an attribute of the wrong kind of
    object, or exhausted fuel. *)
Definition M (A : Type) : Type := gmap loc obj -> option (A * gmap loc obj).

Definition m_ret {A : Type} (a : A) : M A := fun s => Some (a, s).

Definition m_bind {A B : Type} (m : M A) (k : A -> M B) : M B :=
  fun s => match m s with
           | Some (a, s') => k a s'
           | None => None
           end.

Definition m_fail {A : Type} : M A := fun _ => None.

(** A new object. *)
Definition alloc (o : obj) : M loc :=
  fun s => let l := fresh (dom s) in Some (l, <[l := o]> s).

(** Reading the fields of a node object. *)
Definition load_node (l : loc) : M (point * Data * option loc * option loc) :=
  fun s => match s !! l with
           | Some (ONode q e hl hr) => Some ((q, e, hl, hr), s)
           | _ => None
           end.


Definition load_best (l : loc) : M (best_t Data) :=
  fun s => match s !! l with
           | Some (OBest b) => Some (b, s)
           | _ => None
           end.

(** [best[0] = ...; best[1] = ...; best[2] = ...] *)
Definition store_best (l : loc) (b : best_t Data) : M unit :=
  fun s => match s !! l with
           | Some (OBest _) => Some (tt, <[l := OBest b]> s)
           | _ => None
           end.

End Store.

Arguments obj : clear implicits.
Arguments M : clear implicits.

Notation "'perform' x <- m ; k" := (m_bind m (fun x => k))
  (at level 10, x name, m at level 100, k at level 200).
Notation "'discard' m ; k" := (m_bind m (fun _ => k))
  (at level 10, m at level 100, k at level 200).

Section StoreQueries.

Context {Data : Type}.



Fixpoint h_nearest_neighbor_recursive (fuel : nat) (node : option loc)
    (target : point) (depth : nat) (best : loc) : M Data unit :=
  match fuel with
  | O => m_fail
  | S fuel =>
      match node with
      | None => m_ret tt
      | Some l =>
          perform n <- load_node l;
          let '(q, e, hl, hr) := n in
          let distance := euclid q target in
          perform b <- load_best best;
          discard (if dist_ltb distance (snd b)
                then store_best best (Some (q, e), distance) else m_ret tt);
          let axis := (depth mod 2)%nat in
          if coord axis target <? coord axis q then
            discard h_nearest_neighbor_recursive fuel hl target (depth + 1) best;
            perform b <- load_best best;
            if abs_ltb (coord axis target - coord axis q) (snd b)
            then h_nearest_neighbor_recursive fuel hr target (depth + 1) best
            else m_ret tt
          else
            discard h_nearest_neighbor_recursive fuel hr target (depth + 1) best;
            perform b <- load_best best;
            if abs_ltb (coord axis target - coord axis q) (snd b)
            then h_nearest_neighbor_recursive fuel hl target (depth + 1) best
            else m_ret tt
      end
  end.

Definition h_nearest_neighbor (fuel : nat) (root : option loc) (target : point)
    : M Data (option (point * Data * dist)) :=
  match root with
  | None => m_ret None
  | Some _ =>
      perform best <- alloc (OBest best_init);
      discard h_nearest_neighbor_recursive fuel root target 0 best;
      perform b <- load_best best;
      m_ret (best_result b)
  end.

(** The store [s] holds, from the reference [node] on, the tree [t]. *)
Inductive repr (s : gmap loc (obj Data)) : option loc -> KDNode Data -> Prop :=
| repr_nil : repr s None Nil
| repr_node l q e hl hr tl tr :
    s !! l = Some (ONode q e hl hr) ->
    repr s hl tl -> repr s hr tr ->
    repr s (Some l) (Node q e tl tr).

(** The object at [l], if any, is not a node. *)
Definition not_a_node (s : gmap loc (obj Data)) (l : loc) : Prop :=
  forall q e hl hr, s !! l <> Some (ONode q e hl hr).

(** Every object of [s] is in [s'], with the same fields. *)
Definition objects_kept (s s' : gmap loc (obj Data)) : Prop :=
  forall l o, s !! l = Some o -> s' !! l = Some o.

End StoreQueries.

(** ** Concrete trees

    Payloads are numbers here.  [ops_left_child] ends with the deletion of a
    node that has a left child only; [ops_right_min] ends with the deletion
    of a node whose right child has a left child. *)

Definition ops_left_child : list (op nat) :=
  [Insert (5, 5) 1%nat; Insert (3, 3) 2%nat; Insert (4, 4) 3%nat; Delete (5, 5)].

Definition tree_left_child : KDTree nat :=
  mkTree (Node (3, 3) 2%nat (Node (4, 4) 3%nat Nil Nil) Nil).

Definition ops_three : list (op nat) :=
  [Insert (2, 3) 1%nat; Insert (5, 4) 2%nat; Insert (9, 1) 3%nat].

Definition subtree_three : KDNode nat :=
  Node (5, 4) 2%nat (Node (9, 1) 3%nat Nil Nil) Nil.

Definition tree_three : KDTree nat :=
  mkTree (Node (2, 3) 1%nat Nil subtree_three).

Definition ops_right_min : list (op nat) := ops_three ++ [Delete (2, 3)].

Definition tree_right_min : KDTree nat :=
  mkTree (Node (9, 1) 3%nat Nil (Node (5, 4) 2%nat Nil Nil)).

(** A tree whose root is asked for its minimum along its own axis. *)
Definition items_spine : list (point * nat) :=
  [((10, 10), 1%nat); ((5, 5), 2%nat); ((7, 1), 3%nat); ((3, 8), 4%nat)].

Definition tree_spine : KDTree nat :=
  mkTree (Node (10, 10) 1%nat
            (Node (5, 5) 2%nat (Node (7, 1) 3%nat Nil Nil) (Node (3, 8) 4%nat Nil Nil))
            Nil).


Definition store_b : gmap loc (obj nat) :=
  <[7%positive := ONode (3, 3) 2%nat (Some 4%positive) None]>
    (<[4%positive := ONode (4, 4) 3%nat None None]>
       (<[5%positive := OResult [((0, 0), 9%nat)]]> ∅)).

(** ** The nearest-neighbour search on the numbers Python computes

    [math.sqrt] of an integer first converts the integer to a binary64
    number, with rounding to nearest even, and raises [OverflowError] when
    the integer is too large; the square root is then rounded to the nearest
    binary64 number again.  The search compares these rounded numbers with
    [<], and compares the integer [abs(...)] with a rounded number exactly.
    This module gives the search with these numbers, through the
    specification of binary floating-point arithmetic of the standard
    library ([SpecFloat], at precision 53 and exponent 1024), both on the
    inductive tree and on an object store. *)

Module Double.

Import SpecFloat.

Inductive exn : Type :=
| OverflowError : exn
| ValueError : exn.

(** What a call does: it returns a value or raises an exception. *)
Inductive outcome (A : Type) : Type :=
| Returns : A -> outcome A
| Raises : exn -> outcome A.

Arguments Returns {A} _.
Arguments Raises {A} _.

Definition bind {A B : Type} (m : outcome A) (k : A -> outcome B) : outcome B :=
  match m with
  | Returns a => k a
  | Raises e => Raises e
  end.

Definition omap {A B : Type} (f : A -> B) (m : outcome A) : outcome B :=
  bind m (fun a => Returns (f a)).

Local Notation "'attempt' x <- m ; k" := (bind m (fun x => k))
  (at level 10, x name, m at level 100, k at level 200).

Definition prec : Z := 53.
Definition emax : Z := 1024.

(** A distance is a binary64 number. *)
Definition dist : Type := spec_float.

(** [float('inf')] *)
Definition inf : dist := S754_infinity false.

(** [float(n)] for an integer [n]: the nearest binary64 number, or
    [OverflowError] (int too large to convert to float). *)
Definition float_of_int (n : Z) : outcome spec_float :=
  match binary_normalize prec emax n 0 false with
  | S754_infinity _ => Raises OverflowError
  | f => Returns f
  end.

(** [math.sqrt(n)] for an integer [n].  After the conversion the
    square root is taken in binary64; a result that is not a number, or is
    infinite, is a [ValueError] (math domain error), as for a negative
    argument. *)
Definition math_sqrt (n : Z) : outcome dist :=
  attempt f <- float_of_int n;
  match SFsqrt prec emax f with
  | S754_nan => Raises ValueError
  | S754_infinity _ => Raises ValueError
  | r => Returns r
  end.

(** [math.sqrt((p[0] - t[0])**2 + (p[1] - t[1])**2)]; the radicand is an
    integer and is computed exactly. *)
Definition euclid (p t : point) : outcome dist := math_sqrt (sqdist p t).

(** [d1 < d2] on binary64 numbers. *)
Definition dist_ltb (d1 d2 : dist) : bool := SFltb d1 d2.

(** [d1] is not greater than [d2]. *)
Definition dist_leb (d1 d2 : dist) : bool := negb (SFltb d2 d1).

(** [abs(a) < d] for an integer [a] and a binary64 number [d]; Python
    compares an integer with a float by their exact values. *)
Definition abs_ltb (a : Z) (d : dist) : bool :=
  match d with
  | S754_nan => false
  | S754_infinity s => negb s
  | S754_zero _ => Z.abs a <? 0
  | S754_finite s m e =>
      let v := if s then Zneg m else Zpos m in
      match e with
      | Zneg k => Z.abs a * 2 ^ Zpos k <? v
      | _ => Z.abs a <? v * 2 ^ e
      end
  end.

(** The binary64 numbers that are zero or positive and finite. *)
Definition finite_nonneg (d : dist) : Prop :=
  match d with
  | S754_zero _ => True
  | S754_finite false _ _ => True
  | _ => False
  end.

(** The binary64 numbers that are zero, positive or [+inf]. *)
Definition nonneg (d : dist) : Prop :=
  match d with
  | S754_zero _ => True
  | S754_finite false _ _ => True
  | S754_infinity false => True
  | _ => False
  end.

Section Search.

Context {Data : Type}.

Definition best_t : Type := option (point * Data) * dist.

Definition best_init : best_t := (None, inf).

Definition update_best (q : point) (e : Data) (target : point) (best : best_t)
    : outcome best_t :=
  attempt distance <- euclid q target;
  Returns (if dist_ltb distance (snd best) then (Some (q, e), distance) else best).

(** The running best after one more node, given its computed distance. *)
Definition visit (best : best_t) (v : point * Data * dist) : best_t :=
  if dist_ltb (snd v) (snd best) then (Some (fst v), snd v) else best.

Fixpoint _nearest_neighbor_recursive (node : KDNode Data) (target : point)
    (depth : nat) (best : best_t) : outcome best_t :=
  match node with
  | Nil => Returns best
  | Node q e l r =>
      attempt best <- update_best q e target best;
      let axis := (depth mod 2)%nat in
      if coord axis target <? coord axis q then
        attempt best <- _nearest_neighbor_recursive l target (depth + 1) best;
        if abs_ltb (coord axis target - coord axis q) (snd best)
        then _nearest_neighbor_recursive r target (depth + 1) best
        else Returns best
      else
        attempt best <- _nearest_neighbor_recursive r target (depth + 1) best;
        if abs_ltb (coord axis target - coord axis q) (snd best)
        then _nearest_neighbor_recursive l target (depth + 1) best
        else Returns best
  end.

(** [tuple(best) if best[0] is not None else None] *)
Definition best_result (best : best_t) : option (point * Data * dist) :=
  match fst best with
  | Some (p, d) => Some (p, d, snd best)
  | None => None
  end.

Definition nearest_neighbor (t : KDTree Data) (target : point)
    : outcome (option (point * Data * dist)) :=
  match root t with
  | Nil => Returns None
  | Node _ _ _ _ =>
      attempt best <- _nearest_neighbor_recursive (root t) target 0 best_init;
      Returns (best_result best)
  end.

(** The search with a log of the nodes whose distance has been computed. *)
Fixpoint _nn_trace (node : KDNode Data) (target : point) (depth : nat)
    (st : best_t * list (point * Data)) : outcome (best_t * list (point * Data)) :=
  match node with
  | Nil => Returns st
  | Node q e l r =>
      attempt best <- update_best q e target (fst st);
      let st := (best, snd st ++ [(q, e)]) in
      let axis := (depth mod 2)%nat in
      if coord axis target <? coord axis q then
        attempt st <- _nn_trace l target (depth + 1) st;
        if abs_ltb (coord axis target - coord axis q) (snd (fst st))
        then _nn_trace r target (depth + 1) st
        else Returns st
      else
        attempt st <- _nn_trace r target (depth + 1) st;
        if abs_ltb (coord axis target - coord axis q) (snd (fst st))
        then _nn_trace l target (depth + 1) st
        else Returns st
  end.

Definition nn_visits (t : KDTree Data) (target : point)
    : outcome (list (point * Data)) :=
  omap snd (_nn_trace (root t) target 0 (best_init, [])).

(** [x], at the computed distance [dd], is the first entry of [visited]
    whose computed distance to [target] is the least one. *)
Definition first_minimum (target : point) (visited : list (point * Data))
    (x : point * Data) (dd : dist) : Prop :=
  exists before after,
    visited = before ++ x :: after
    /\ euclid (fst x) target = Returns dd
    /\ Forall (fun y => exists dy, euclid (fst y) target = Returns dy
                                   /\ dist_ltb dd dy = true) before
    /\ Forall (fun y => exists dy, euclid (fst y) target = Returns dy
                                   /\ dist_leb dd dy = true) after.

(** *** On the object store *)

Inductive obj : Type :=
| ONode : point -> Data -> option loc -> option loc -> obj
| OBest : best_t -> obj.

(** A computation on the store.  [None] is a run that gives nothing (a
    reference to a missing object, an attribute of the wrong kind of object,
    exhausted fuel); otherwise the run returns or raises, in a store. *)
Definition M (A : Type) : Type :=
  gmap loc obj -> option (outcome A * gmap loc obj).

Definition m_ret {A : Type} (a : A) : M A := fun s => Some (Returns a, s).

Definition m_lift {A : Type} (m : outcome A) : M A := fun s => Some (m, s).

Definition m_bind {A B : Type} (m : M A) (k : A -> M B) : M B :=
  fun s => match m s with
           | Some (Returns a, s') => k a s'
           | Some (Raises e, s') => Some (Raises e, s')
           | None => None
           end.

Definition m_fail {A : Type} : M A := fun _ => None.

Definition alloc (o : obj) : M loc :=
  fun s => let l := fresh (dom s) in Some (Returns l, <[l := o]> s).

Definition load_node (l : loc) : M (point * Data * option loc * option loc) :=
  fun s => match s !! l with
           | Some (ONode q e hl hr) => Some (Returns (q, e, hl, hr), s)
           | _ => None
           end.

Definition load_best (l : loc) : M best_t :=
  fun s => match s !! l with
           | Some (OBest b) => Some (Returns b, s)
           | _ => None
           end.

Definition store_best (l : loc) (b : best_t) : M unit :=
  fun s => match s !! l with
           | Some (OBest _) => Some (Returns tt, <[l := OBest b]> s)
           | _ => None
           end.

Local Notation "'fetch' x <- m ; k" := (m_bind m (fun x => k))
  (at level 10, x name, m at level 100, k at level 200).
Local Notation "'after' m ; k" := (m_bind m (fun _ => k))
  (at level 10, m at level 100, k at level 200).

Fixpoint h_nearest_neighbor_recursive (fuel : nat) (node : option loc)
    (target : point) (depth : nat) (best : loc) : M unit :=
  match fuel with
  | O => m_fail
  | S fuel =>
      match node with
      | None => m_ret tt
      | Some l =>
          fetch n <- load_node l;
          let '(q, e, hl, hr) := n in
          fetch distance <- m_lift (euclid q target);
          fetch b <- load_best best;
          after (if dist_ltb distance (snd b)
                 then store_best best (Some (q, e), distance) else m_ret tt);
          let axis := (depth mod 2)%nat in
          if coord axis target <? coord axis q then
            after h_nearest_neighbor_recursive fuel hl target (depth + 1) best;
            fetch b <- load_best best;
            if abs_ltb (coord axis target - coord axis q) (snd b)
            then h_nearest_neighbor_recursive fuel hr target (depth + 1) best
            else m_ret tt
          else
            after h_nearest_neighbor_recursive fuel hr target (depth + 1) best;
            fetch b <- load_best best;
            if abs_ltb (coord axis target - coord axis q) (snd b)
            then h_nearest_neighbor_recursive fuel hl target (depth + 1) best
            else m_ret tt
      end
  end.

Definition h_nearest_neighbor (fuel : nat) (rt : option loc) (target : point)
    : M (option (point * Data * dist)) :=
  match rt with
  | None => m_ret None
  | Some _ =>
      fetch best <- alloc (OBest best_init);
      after h_nearest_neighbor_recursive fuel rt target 0 best;
      fetch b <- load_best best;
      m_ret (best_result b)
  end.

(** The store [s] holds, from the reference [node] on, the tree [t]. *)
Inductive repr (s : gmap loc obj) : option loc -> KDNode Data -> Prop :=
| repr_nil : repr s None Nil
| repr_node l q e hl hr tl tr :
    s !! l = Some (ONode q e hl hr) ->
    repr s hl tl -> repr s hr tr ->
    repr s (Some l) (Node q e tl tr).

Definition not_a_node (s : gmap loc obj) (l : loc) : Prop :=
  forall q e hl hr, s !! l <> Some (ONode q e hl hr).

Definition objects_kept (s s' : gmap loc obj) : Prop :=
  forall l o, s !! l = Some o -> s' !! l = Some o.

End Search.

Arguments best_t : clear implicits.
Arguments obj : clear implicits.

End Double.

(** Two stores that hold the tree of [tree_left_child] in different
    objects; the second one also holds the list [best] of an earlier
    search. *)
Definition double_store_a : gmap loc (Double.obj nat) :=
  <[1%positive := Double.ONode (3, 3) 2%nat (Some 2%positive) None]>
    (<[2%positive := Double.ONode (4, 4) 3%nat None None]> ∅).

Definition double_store_b : gmap loc (Double.obj nat) :=
  <[7%positive := Double.ONode (3, 3) 2%nat (Some 4%positive) None]>
    (<[4%positive := Double.ONode (4, 4) 3%nat None None]>
       (<[5%positive := Double.OBest (Some ((0, 0), 9%nat), Double.inf)]> ∅)).

(** Trees of points with large coordinates, built by insertions alone. *)
Definition tree_large_x : KDTree nat :=
  insert (insert empty_tree (10 ^ 9, 1) 1%nat) (10 ^ 9, 0) 2%nat.

Definition tree_large_y : KDTree nat :=
  insert (insert empty_tree (3, 10 ^ 9) 1%nat) (2, 10 ^ 9) 2%nat.

Definition tree_huge : KDTree nat := insert empty_tree (10 ^ 200, 0) 1%nat.

(** ** The application of [map_search.py]

    [MapSearchApp] keeps the list of its objects, a [KDTree] whose payloads
    are the objects, and the set of their types.  Its fields [center_lat] and
    [center_lon] are only read when the map is drawn and are left out.
    [calculate_distance] is trigonometry on floating-point numbers; it is a
    parameter here, together with the type of its results and the order on
    them.  Coordinates are whole numbers, as in the tree. *)

Module MapSearch.

Record MapObject : Type := mkMapObject
  { name : string; type : string; x : Z; y : Z; address : string }.

Definition get_coordinates (obj : MapObject) : point := (x obj, y obj).

Record MapSearchApp : Type := mkApp
  { objects : list MapObject;
    kd_tree : KDTree MapObject;
    object_types : gset string }.

(** The state after [__init__]. *)
Definition new_app : MapSearchApp := mkApp [] empty_tree ∅.

Definition add_object (app : MapSearchApp) (obj : MapObject) : MapSearchApp :=
  mkApp (objects app ++ [obj])
        (insert (kd_tree app) (get_coordinates obj) obj)
        ({[type obj]} ∪ object_types app).

(** [for obj in objs: self.add_object(obj)], as [load_sample_data] and
    [load_real_data] do. *)
Definition add_objects (objs : list MapObject) (app : MapSearchApp) : MapSearchApp :=
  fold_left add_object objs app.

Definition filter_by_type (app : MapSearchApp) (obj_type : string) : list MapObject :=
  List.filter (fun obj => String.eqb (type obj) obj_type) (objects app).

(** [if obj_type:] for an optional string: [None] and the empty string
    are false. *)
Definition given (obj_type : option string) : option string :=
  match obj_type with
  | Some s => if String.eqb s EmptyString then None else Some s
  | None => None
  end.


(** The pair under which [add_object] stores an object in the tree. *)
Definition entry (obj : MapObject) : point * MapObject := (get_coordinates obj, obj).

Section Distance.

Variable Km : Type.
Variable calculate_distance : Z -> Z -> Z -> Z -> Km.
(** [d1 <= d2] on distances in kilometres. *)
Variable km_leb : Km -> Km -> bool.
(** A number taken as a distance in kilometres. *)
Variable km_of : Z -> Km.

(** The search in the tree is the one on binary64 distances; an exception
    it raises is not caught. *)
Definition find_nearest (app : MapSearchApp) (x0 y0 : Z) (obj_type : option string)
    : Double.outcome (option (MapObject * Km)) :=
  let conv (result : option (point * MapObject * Double.dist)) :=
    match result with
    | Some (pt, obj, _) => Some (obj, calculate_distance x0 y0 (fst pt) (snd pt))
    | None => None
    end in
  match given obj_type with
  | Some ty =>
      let filtered_objects := filter_by_type app ty in
      match filtered_objects with
      | [] => Double.Returns None
      | _ :: _ =>
          let temp_tree :=
            fold_left (fun t obj => insert t (get_coordinates obj) obj)
              filtered_objects empty_tree in
          Double.omap conv (Double.nearest_neighbor temp_tree (x0, y0))
      end
  | None => Double.omap conv (Double.nearest_neighbor (kd_tree app) (x0, y0))
  end.

(** [results.sort(key=lambda x: x[1])]: a stable sort on the distance.  An
    entry goes behind the entries, all of them earlier ones, whose distance
    is at most its own. *)
Fixpoint insert_by_distance (r : MapObject * Km) (rs : list (MapObject * Km))
    : list (MapObject * Km) :=
  match rs with
  | [] => [r]
  | r' :: rs' =>
      if km_leb (snd r') (snd r) then r' :: insert_by_distance r rs' else r :: rs
  end.

Definition sort_by_distance (rs : list (MapObject * Km)) : list (MapObject * Km) :=
  fold_left (fun acc r => insert_by_distance r acc) rs [].

Definition search_in_area (app : MapSearchApp) (center_x center_y radius : Z)
    (obj_type : option string) : list (MapObject * Km) :=
  let min_x := center_x - radius in
  let max_x := center_x + radius in
  let min_y := center_y - radius in
  let max_y := center_y + radius in
  let candidates :=
    range_search (kd_tree app) (Fin min_x, Fin min_y) (Fin max_x, Fin max_y) in
  let candidates :=
    match given obj_type with
    | Some ty => List.filter (fun c => String.eqb (type (snd c)) ty) candidates
    | None => candidates
    end in
  let results :=
    flat_map (fun c =>
                let distance :=
                  calculate_distance center_x center_y (fst (fst c)) (snd (fst c)) in
                if km_leb distance (km_of (radius * 111))
                then [(snd c, distance)] else [])
      candidates in
  sort_by_distance results.

End Distance.

End MapSearch.

(** ** A concrete application

    Three objects, and a stand-in for [calculate_distance] on whole
    numbers. *)

Definition shop_a : MapSearch.MapObject :=
  MapSearch.mkMapObject "shop a" "shop" 2 3 "street 1".

Definition cafe_b : MapSearch.MapObject :=
  MapSearch.mkMapObject "cafe b" "cafe" 5 4 "street 2".

Definition shop_c : MapSearch.MapObject :=
  MapSearch.mkMapObject "shop c" "shop" 9 1 "street 3".

Definition app_three : MapSearch.MapSearchApp :=
  MapSearch.add_objects [shop_a; cafe_b; shop_c] MapSearch.new_app.

Definition taxicab (x1 y1 x2 y2 : Z) : Z := Z.abs (x1 - x2) + Z.abs (y1 - y2).

(** * Properties *)

#[local] Arguments Nat.modulo : simpl never.
#[local] Arguments Z.pow : simpl never.
#[local] Arguments Z.mul : simpl never.
#[local] Arguments Z.sub : simpl never.
#[local] Arguments Z.add : simpl never.
#[local] Arguments ext_leb : simpl never.

(** ** Numbers *)

Lemma point_eqb_eq (p q : point) : point_eqb p q = true <-> p = q.
Proof.
  unfold point_eqb. destruct p as [px py], q as [qx qy]; simpl.
  rewrite andb_true_iff, !Z.eqb_eq. split.
  - intros [-> ->]. reflexivity.
  - intros [= -> ->]. split; reflexivity.
Qed.

Lemma point_eqb_neq (p q : point) : point_eqb p q = false <-> p <> q.
Proof.
  rewrite <- point_eqb_eq. destruct (point_eqb p q); split; congruence.
Qed.

Lemma ext_leb_trans (a b c : ext) :
  ext_leb a b = true -> ext_leb b c = true -> ext_leb a c = true.
Proof.
  destruct a, b, c; cbv [ext_leb]; try congruence; rewrite ?Z.leb_le; lia.
Qed.

Lemma in_rect_spec (min_point max_point : qpoint) (p : point) :
  in_rect min_point max_point p = true <->
  (ext_le (fst min_point) (Fin (fst p)) /\ ext_le (Fin (fst p)) (fst max_point)) /\
  (ext_le (snd min_point) (Fin (snd p)) /\ ext_le (Fin (snd p)) (snd max_point)).
Proof.
  unfold in_rect, ext_le. rewrite !andb_true_iff. tauto.
Qed.

Lemma in_rect_coord (min_point max_point : qpoint) (p : point) (axis : nat) :
  in_rect min_point max_point p = true ->
  ext_leb (qcoord axis min_point) (Fin (coord axis p)) = true /\
  ext_leb (Fin (coord axis p)) (qcoord axis max_point) = true.
Proof.
  rewrite in_rect_spec. unfold ext_le, qcoord, coord.
  destruct axis; tauto.
Qed.

(** A rectangle with a corner component of [min_point] above the one of
    [max_point] contains no point. *)
Lemma in_rect_inverted (min_point max_point : qpoint) (axis : nat) (p : point) :
  ext_leb (qcoord axis min_point) (qcoord axis max_point) = false ->
  in_rect min_point max_point p = false.
Proof.
  intros Hinv. destruct (in_rect min_point max_point p) eqn:Hin; [|reflexivity].
  destruct (in_rect_coord _ _ _ axis Hin) as [H1 H2].
  rewrite (ext_leb_trans _ _ _ H1 H2) in Hinv. discriminate.
Qed.

Section Theory.

Context {Data : Type}.

Implicit Types (node l r : KDNode Data) (t : KDTree Data) (p q pt : point)
  (d e : Data) (depth : nat).

(** ** The invariant and its test *)

Lemma points_node q e l r : points (Node q e l r) = q :: points l ++ points r.
Proof. unfold points. simpl. rewrite map_app. reflexivity. Qed.

Lemma length_nodes_node q e l r :
  length (nodes (Node q e l r)) = S (length (nodes l) + length (nodes r)).
Proof. cbn [nodes length]. rewrite length_app. reflexivity. Qed.

Lemma kd_invb_spec node depth : kd_invb node depth = true <-> kd_inv node depth.
Proof.
  revert depth. induction node as [|q e l IHl r IHr]; intros depth; simpl.
  - tauto.
  - rewrite !andb_true_iff, IHl, IHr, !forallb_forall, !List.Forall_forall.
    split.
    + intros [[[H1 H2] H3] H4]. repeat split; auto.
      * intros x Hx. apply Z.ltb_lt. auto.
      * intros x Hx. apply Z.leb_le. auto.
    + intros (H1 & H2 & H3 & H4). repeat split; auto.
      * intros x Hx. apply Z.ltb_lt. auto.
      * intros x Hx. apply Z.leb_le. auto.
Qed.

(** ** Insertion *)

Lemma nodes_insert_perm node pt data depth :
  Permutation (nodes (_insert_recursive node pt data depth)) ((pt, data) :: nodes node).
Proof.
  revert depth. induction node as [|q e l IHl r IHr]; intros depth; simpl.
  - reflexivity.
  - destruct (coord (depth mod 2) pt <? coord (depth mod 2) q); simpl.
    + rewrite IHl. simpl. apply perm_swap.
    + rewrite IHr. rewrite perm_swap. apply perm_skip.
      symmetry. apply Permutation_middle.
Qed.

Lemma points_insert_perm node pt data depth :
  Permutation (points (_insert_recursive node pt data depth)) (pt :: points node).
Proof.
  unfold points. rewrite nodes_insert_perm. reflexivity.
Qed.

(** Insertion keeps the partition invariant. *)
Lemma insert_recursive_inv node pt data depth :
  kd_inv node depth -> kd_inv (_insert_recursive node pt data depth) depth.
Proof.
  revert depth. induction node as [|q e l IHl r IHr]; intros depth Hinv; simpl.
  - repeat split; constructor.
  - destruct Hinv as (Hl & Hr & Il & Ir).
    destruct (coord (depth mod 2) pt <? coord (depth mod 2) q) eqn:Hcmp; simpl.
    + repeat split; auto.
      rewrite points_insert_perm. constructor; [|exact Hl].
      apply Z.ltb_lt. exact Hcmp.
    + repeat split; auto.
      rewrite points_insert_perm. constructor; [|exact Hr].
      apply Z.ltb_ge. exact Hcmp.
Qed.

(** ** Range search *)

(** Over the unbounded rectangle every node is appended, in node-left-right
    order. *)
Lemma range_search_recursive_unbounded node depth (result : list (point * Data)) :
  _range_search_recursive node unbounded_min unbounded_max depth result
  = result ++ nodes node.
Proof.
  revert depth result. induction node as [|q e l IHl r IHr]; intros depth result; simpl.
  - rewrite app_nil_r. reflexivity.
  - destruct (depth mod 2)%nat; simpl; rewrite IHr, IHl, <- !app_assoc; reflexivity.
Qed.

Lemma range_search_unbounded t :
  range_search t unbounded_min unbounded_max = nodes (root t).
Proof. unfold range_search. apply range_search_recursive_unbounded. Qed.

(** A call appends to the shared list, and what it appends does not depend
    on what the list held. *)
Lemma range_search_recursive_app node min_point max_point depth result :
  _range_search_recursive node min_point max_point depth result
  = result ++ range_found node min_point max_point depth.
Proof.
  revert depth result. induction node as [|q e l IHl r IHr]; intros depth result.
  - simpl. rewrite app_nil_r. reflexivity.
  - cbn [_range_search_recursive range_found].
    destruct (in_rect min_point max_point q);
      destruct (ext_leb (qcoord (depth mod 2) min_point) (Fin (coord (depth mod 2) q)));
      destruct (ext_leb (Fin (coord (depth mod 2) q)) (qcoord (depth mod 2) max_point));
      rewrite ?IHr, ?IHl, ?app_nil_r, <- ?app_assoc; reflexivity.
Qed.

(** Only nodes of the subtree that pass the containment test are found. *)
Lemma range_found_sound node min_point max_point depth (x : point * Data) :
  In x (range_found node min_point max_point depth) ->
  In x (nodes node) /\ in_rect min_point max_point (fst x) = true.
Proof.
  revert depth. induction node as [|q e l IHl r IHr]; intros depth Hx.
  - destruct Hx.
  - cbn [range_found] in Hx. cbn [nodes].
    apply in_app_or in Hx. destruct Hx as [Hx|Hx].
    + destruct (in_rect min_point max_point q) eqn:Hq; [|destruct Hx].
      destruct Hx as [<-|[]]. split; [left; reflexivity|exact Hq].
    + apply in_app_or in Hx. destruct Hx as [Hx|Hx].
      * destruct (ext_leb _ _); [|destruct Hx].
        apply IHl in Hx. destruct Hx as [Hx ?]. split; [|assumption].
        right. apply in_or_app. left. exact Hx.
      * destruct (ext_leb _ _); [|destruct Hx].
        apply IHr in Hx. destruct Hx as [Hx ?]. split; [|assumption].
        right. apply in_or_app. right. exact Hx.
Qed.



(** No pair is found in a rectangle that contains no point. *)
Lemma range_found_nil node min_point max_point depth :
  (forall p, in_rect min_point max_point p = false) ->
  range_found node min_point max_point depth = [].
Proof.
  intros Hempty. destruct (range_found node min_point max_point depth) as [|x xs] eqn:E;
    [reflexivity|].
  assert (Hx : In x (range_found node min_point max_point depth))
    by (rewrite E; left; reflexivity).
  apply range_found_sound in Hx. destruct Hx as [_ Hx].
  rewrite Hempty in Hx. discriminate.
Qed.

(** Trees built by insertions alone satisfy the partition invariant. *)
Lemma insert_all_inv (items : list (point * Data)) t :
  kd_inv (root t) 0 -> kd_inv (root (insert_all items t)) 0.
Proof.
  revert t. induction items as [|x items IH]; intros t Hinv; [exact Hinv|].
  apply IH. apply insert_recursive_inv. exact Hinv.
Qed.

Lemma nodes_insert_all_perm (items : list (point * Data)) t :
  Permutation (nodes (root (insert_all items t))) (nodes (root t) ++ items).
Proof.
  revert t. induction items as [|[pt data] items IH]; intros t.
  - rewrite app_nil_r. reflexivity.
  - change (insert_all ((pt, data) :: items) t) with (insert_all items (insert t pt data)).
    rewrite IH. cbn [insert root fst snd]. rewrite nodes_insert_perm.
    cbn [app]. apply Permutation_middle.
Qed.

(** ** Minimum along an axis *)

Lemma find_min_is_Some q e l r axis : is_Some (_find_min (Node q e l r) axis).
Proof.
  destruct axis as [|a]; [|simpl; eauto].
  revert q e r. induction l as [|q' e' l' IHl' r' _]; intros q e r.
  - simpl. eauto.
  - change (is_Some (_find_min (Node q' e' l' r') 0)). apply IHl'.
Qed.

Lemma pick_min_cases axis (cand : option (point * Data)) (m : point * Data) :
  pick_min axis cand m = m \/ cand = Some (pick_min axis cand m).
Proof.
  unfold pick_min. destruct cand as [c|]; [|left; reflexivity].
  destruct (_ <? _); [right|left]; reflexivity.
Qed.

Lemma pick_min_le_old axis (cand : option (point * Data)) (m : point * Data) :
  coord axis (fst (pick_min axis cand m)) <= coord axis (fst m).
Proof.
  unfold pick_min. destruct cand as [c|]; [|lia].
  destruct (_ <? _) eqn:H; [apply Z.ltb_lt in H|]; lia.
Qed.

Lemma pick_min_le_cand axis (c m : point * Data) :
  coord axis (fst (pick_min axis (Some c) m)) <= coord axis (fst c).
Proof.
  unfold pick_min. destruct (_ <? _) eqn:H; [lia|apply Z.ltb_ge in H; lia].
Qed.

(** The node returned belongs to the subtree searched. *)
Lemma find_min_In node axis (m : point * Data) :
  _find_min node axis = Some m -> In m (nodes node).
Proof.
  revert m. induction node as [|q e l IHl r IHr]; intros m Hm; [discriminate|].
  destruct axis as [|a].
  - simpl in Hm. destruct l as [|q' e' l' r'].
    + injection Hm as <-. left. reflexivity.
    + right. apply in_or_app. left. apply IHl. exact Hm.
  - cbn [_find_min] in Hm. injection Hm as <-. cbn [nodes].
    destruct (pick_min_cases (S a) (_find_min r (S a))
                (pick_min (S a) (_find_min l (S a)) (q, e))) as [->|Hr].
    + destruct (pick_min_cases (S a) (_find_min l (S a)) (q, e)) as [->|Hl].
      * left. reflexivity.
      * right. apply in_or_app. left. apply IHl. exact Hl.
    + right. apply in_or_app. right. apply IHr. exact Hr.
Qed.

Lemma pick_min_below_subtree node (m0 : point * Data) :
  (forall m, _find_min node 1 = Some m ->
             Forall (fun p => coord 1 (fst m) <= coord 1 p) (points node)) ->
  Forall (fun p => coord 1 (fst (pick_min 1 (_find_min node 1) m0)) <= coord 1 p)
    (points node).
Proof.
  intros IH. destruct (_find_min node 1) as [m|] eqn:Hm.
  - eapply Forall_impl; [apply (IH m eq_refl)|]. cbv beta. intros x Hx.
    pose proof (pick_min_le_cand 1 m m0). lia.
  - destruct node as [|q e l r]; [constructor|].
    destruct (find_min_is_Some q e l r 1) as [? ?]. congruence.
Qed.

(** With target axis 1 the search goes through the whole subtree, and its
    result is minimal whatever the shape of the subtree. *)
Lemma find_min_axis1_minimal node (m : point * Data) :
  _find_min node 1 = Some m ->
  Forall (fun p => coord 1 (fst m) <= coord 1 p) (points node).
Proof.
  revert m. induction node as [|q e l IHl r IHr]; intros m Hm; [discriminate|].
  cbn [_find_min] in Hm. injection Hm as <-.
  pose proof (pick_min_below_subtree l (q, e) IHl) as HL.
  pose proof (pick_min_below_subtree r (pick_min 1 (_find_min l 1) (q, e)) IHr) as HR.
  pose proof (pick_min_le_old 1 (_find_min r 1) (pick_min 1 (_find_min l 1) (q, e))) as H21.
  pose proof (pick_min_le_old 1 (_find_min l 1) (q, e)) as H1q.
  change (fst (q, e)) with q in H1q.
  rewrite points_node. constructor; [lia|]. apply Forall_app. split.
  - eapply Forall_impl; [exact HL|]. cbv beta. intros x Hx. lia.
  - exact HR.
Qed.

(** ** Deletion *)

(** No exception escapes: [_find_min] is only called on present children. *)
Lemma delete_recursive_is_Some node pt depth :
  is_Some (_delete_recursive node pt depth).
Proof.
  revert pt depth. induction node as [|q e l IHl r IHr]; intros pt depth.
  - simpl. eauto.
  - cbn [_delete_recursive].
    destruct (point_eqb q pt).
    + destruct l as [|lq le ll lr], r as [|rq re rl rr]; [eauto| | |].
      * destruct (find_min_is_Some rq re rl rr (depth mod 2)) as [m ->].
        destruct (IHr (fst m) (depth + 1)%nat) as [res Hres].
        cbn [mbind option_bind]. rewrite Hres. cbn [mbind option_bind]. eauto.
      * destruct (find_min_is_Some lq le ll lr (depth mod 2)) as [m ->].
        destruct (IHl (fst m) (depth + 1)%nat) as [res Hres].
        cbn [mbind option_bind]. rewrite Hres. cbn [mbind option_bind]. eauto.
      * destruct (find_min_is_Some rq re rl rr (depth mod 2)) as [m ->].
        destruct (IHr (fst m) (depth + 1)%nat) as [res Hres].
        cbn [mbind option_bind]. rewrite Hres. cbn [mbind option_bind]. eauto.
    + destruct (_ <? _).
      * destruct (IHl pt (depth + 1)%nat) as [res ->]. cbn [mbind option_bind]. eauto.
      * destruct (IHr pt (depth + 1)%nat) as [res ->]. cbn [mbind option_bind]. eauto.
Qed.

(** A point that no node stores is searched for without any assignment. *)
Lemma delete_recursive_absent node pt depth :
  ~ In pt (points node) -> _delete_recursive node pt depth = Some (node, false).
Proof.
  revert depth. induction node as [|q e l IHl r IHr]; intros depth Hnot.
  - reflexivity.
  - rewrite points_node in Hnot. cbn [_delete_recursive].
    assert (Hq : point_eqb q pt = false).
    { apply point_eqb_neq. intros ->. apply Hnot. left. reflexivity. }
    rewrite Hq.
    destruct (_ <? _).
    + rewrite IHl; [reflexivity|]. intros H. apply Hnot. right.
      apply in_or_app. left. exact H.
    + rewrite IHr; [reflexivity|]. intros H. apply Hnot. right.
      apply in_or_app. right. exact H.
Qed.

(** In a subtree that satisfies the partition invariant the search of
    [_delete_recursive] reaches every stored point, and one node goes. *)
Lemma delete_recursive_found node pt depth :
  kd_inv node depth -> In pt (points node) ->
  exists node',
    _delete_recursive node pt depth = Some (node', true)
    /\ S (length (nodes node')) = length (nodes node).
Proof.
  revert pt depth. induction node as [|q e l IHl r IHr]; intros pt depth Hinv Hin.
  - destruct Hin.
  - destruct Hinv as (Hl & Hr & Il & Ir). rewrite points_node in Hin.
    cbn [_delete_recursive].
    destruct (point_eqb q pt) eqn:Hq.
    + destruct l as [|lq le ll lr], r as [|rq re rl rr].
      * eexists. split; reflexivity.
      * destruct (find_min_is_Some rq re rl rr (depth mod 2)) as [m Hm]. rewrite Hm.
        cbn [mbind option_bind].
        destruct (IHr (fst m) (depth + 1)%nat Ir) as (r' & Hdel & Hsize).
        { unfold points. apply in_map. apply find_min_In with (axis := (depth mod 2)%nat).
          exact Hm. }
        rewrite Hdel. cbn [mbind option_bind fst]. eexists. split; [reflexivity|].
        rewrite ?length_nodes_node in *. cbn [nodes length] in *. lia.
      * destruct (find_min_is_Some lq le ll lr (depth mod 2)) as [m Hm]. rewrite Hm.
        cbn [mbind option_bind].
        destruct (IHl (fst m) (depth + 1)%nat Il) as (l' & Hdel & Hsize).
        { unfold points. apply in_map. apply find_min_In with (axis := (depth mod 2)%nat).
          exact Hm. }
        rewrite Hdel. cbn [mbind option_bind fst]. eexists. split; [reflexivity|].
        rewrite ?length_nodes_node in *. cbn [nodes length] in *. lia.
      * destruct (find_min_is_Some rq re rl rr (depth mod 2)) as [m Hm]. rewrite Hm.
        cbn [mbind option_bind].
        destruct (IHr (fst m) (depth + 1)%nat Ir) as (r' & Hdel & Hsize).
        { unfold points. apply in_map. apply find_min_In with (axis := (depth mod 2)%nat).
          exact Hm. }
        rewrite Hdel. cbn [mbind option_bind fst]. eexists. split; [reflexivity|].
        rewrite ?length_nodes_node in *. cbn [nodes length] in *. lia.
    + apply point_eqb_neq in Hq.
      destruct Hin as [Hin|Hin]; [congruence|].
      apply in_app_or in Hin.
      rewrite List.Forall_forall in Hl, Hr.
      destruct (_ <? _) eqn:Hcmp.
      * apply Z.ltb_lt in Hcmp.
        destruct Hin as [Hin|Hin]; [|apply Hr in Hin; lia].
        destruct (IHl pt (depth + 1)%nat Il Hin) as (l' & -> & Hsize).
        cbn [mbind option_bind fst snd]. eexists. split; [reflexivity|].
        rewrite ?length_nodes_node in *. cbn [nodes length] in *. lia.
      * apply Z.ltb_ge in Hcmp.
        destruct Hin as [Hin|Hin]; [apply Hl in Hin; lia|].
        destruct (IHr pt (depth + 1)%nat Ir Hin) as (r' & -> & Hsize).
        cbn [mbind option_bind fst snd]. eexists. split; [reflexivity|].
        rewrite ?length_nodes_node in *. cbn [nodes length] in *. lia.
Qed.

End Theory.

(** ** The queries on the object store *)

Section StoreTheory.

Context {Data : Type}.

Implicit Types (s : gmap loc (obj Data)) (node : option loc) (t : KDNode Data).










End StoreTheory.

(** ** The search on binary64 distances *)

Section DoubleNumbers.

Import SpecFloat.
Import Double.

Ltac sf_order :=
  unfold dist_leb, dist_ltb, SFltb, SFcompare, nonneg in *;
  repeat match goal with
         | d : dist |- _ => destruct d as [[|]|[|]| |[|] ? ?]
         end;
  cbn [negb] in *; try contradiction; try congruence;
  repeat match goal with
         | H : context [Pos.compare_cont Eq ?a ?b] |- _ =>
             change (Pos.compare_cont Eq a b) with (Pos.compare a b) in H
         | |- context [Pos.compare_cont Eq ?a ?b] =>
             change (Pos.compare_cont Eq a b) with (Pos.compare a b)
         end;
  repeat match goal with
         | H : context [Z.compare ?a ?b] |- _ => destruct (Z.compare_spec a b)
         | |- context [Z.compare ?a ?b] => destruct (Z.compare_spec a b)
         | H : context [Pos.compare ?a ?b] |- _ => destruct (Pos.compare_spec a b)
         | |- context [Pos.compare ?a ?b] => destruct (Pos.compare_spec a b)
         end;
  subst; cbn [negb] in *; try congruence; try lia.

Lemma double_leb_refl (d : dist) : nonneg d -> dist_leb d d = true.
Proof. intros. sf_order. Qed.

Lemma double_ltb_leb (d1 d2 : dist) :
  nonneg d1 -> nonneg d2 -> dist_ltb d1 d2 = true -> dist_leb d1 d2 = true.
Proof. intros. sf_order. Qed.

Lemma double_ltb_trans (d1 d2 d3 : dist) :
  nonneg d1 -> nonneg d2 -> nonneg d3 ->
  dist_ltb d1 d2 = true -> dist_ltb d2 d3 = true -> dist_ltb d1 d3 = true.
Proof. intros. sf_order. Qed.

Lemma double_leb_trans (d1 d2 d3 : dist) :
  nonneg d1 -> nonneg d2 -> nonneg d3 ->
  dist_leb d1 d2 = true -> dist_leb d2 d3 = true -> dist_leb d1 d3 = true.
Proof. intros. sf_order. Qed.

Lemma double_ltb_leb_trans (d1 d2 d3 : dist) :
  nonneg d1 -> nonneg d2 -> nonneg d3 ->
  dist_ltb d1 d2 = true -> dist_leb d2 d3 = true -> dist_ltb d1 d3 = true.
Proof. intros. sf_order. Qed.

Lemma double_ltb_false_leb (d1 d2 : dist) : dist_ltb d1 d2 = false -> dist_leb d2 d1 = true.
Proof. unfold dist_leb, dist_ltb. intros ->. reflexivity. Qed.

(** [math.sqrt] returns a number that is finite and not negative. *)
Lemma math_sqrt_returns (n : Z) (d : dist) :
  math_sqrt n = Returns d -> finite_nonneg d.
Proof.
  unfold math_sqrt, float_of_int.
  destruct (binary_normalize prec emax n 0 false) as [s0|s0| |[|] mf ef];
    cbn [bind SFsqrt]; try discriminate.
  - intros [= <-]. exact I.
  - destruct (SFsqrt_core_binary prec emax (Z.pos mf) ef) as [[mq eq] lq].
    unfold binary_round_aux.
    destruct (shr_fexp prec emax mq eq lq) as [mrs' e'].
    destruct (shr_fexp prec emax _ e' loc_Exact) as [mrs'' e''].
    destruct (shr_m mrs'') as [|m|m]; [intros [= <-]; exact I| |discriminate].
    destruct (e'' <=? emax - prec); [intros [= <-]; exact I|discriminate].
Qed.

Lemma euclid_returns (p t : point) (d : dist) :
  euclid p t = Returns d -> finite_nonneg d.
Proof. apply math_sqrt_returns. Qed.

Lemma finite_nonneg_nonneg (d : dist) : finite_nonneg d -> nonneg d.
Proof. destruct d as [[|]|[|]| |[|] ? ?]; cbn; tauto. Qed.

Lemma finite_ltb_inf (d : dist) : finite_nonneg d -> dist_ltb d inf = true.
Proof. destruct d as [[|]|[|]| |[|] ? ?]; cbn; try tauto; reflexivity. Qed.

End DoubleNumbers.

(** *** Bounds on rounding

    Rounding a positive number never gives zero, and the square root of a
    finite number is finite: [math.sqrt] of an integer raises nothing but
    [OverflowError]. *)

Section DoubleRounding.

Import SpecFloat.
Import Double.

(** The number of binary digits of a positive number. *)
Lemma Zdigits2_spec (p : positive) :
  2 ^ (Zdigits2 (Zpos p) - 1) <= Zpos p < 2 ^ Zdigits2 (Zpos p).
Proof.
  cbn [Zdigits2]. induction p as [p IH|p IH|].
  - cbn [digits2_pos]. rewrite Pos2Z.inj_succ.
    replace (Z.succ (Zpos (digits2_pos p)) - 1) with (Z.succ (Zpos (digits2_pos p) - 1)) by lia.
    rewrite !Z.pow_succ_r by lia. lia.
  - cbn [digits2_pos]. rewrite Pos2Z.inj_succ.
    replace (Z.succ (Zpos (digits2_pos p)) - 1) with (Z.succ (Zpos (digits2_pos p) - 1)) by lia.
    rewrite !Z.pow_succ_r by lia. lia.
  - cbn [digits2_pos]. change (2 ^ (1 - 1)) with 1. change (2 ^ 1) with 2. lia.
Qed.

Lemma Zdigits2_positive (m : Z) : 0 < m -> 0 < Zdigits2 m.
Proof. destruct m; cbn; lia. Qed.

Lemma Zdigits2_le (m k : Z) : 0 < m -> 0 <= k -> m < 2 ^ k -> Zdigits2 m <= k.
Proof.
  intros Hm Hk Hlt. destruct m as [|p|p]; try lia.
  destruct (Zdigits2_spec p) as [Hlo _].
  destruct (Z.le_gt_cases (Zdigits2 (Zpos p)) k) as [H|H]; [exact H|exfalso].
  assert (2 ^ k <= 2 ^ (Zdigits2 (Zpos p) - 1)) by (apply Z.pow_le_mono_r; lia).
  lia.
Qed.

Lemma Zdigits2_lt_pow (m : Z) : 0 < m -> m < 2 ^ Zdigits2 m.
Proof. intros Hm. destruct m as [|p|p]; try lia. apply Zdigits2_spec. Qed.

Lemma Zdigits2_ge_pow (m : Z) : 0 < m -> 2 ^ (Zdigits2 m - 1) <= m.
Proof. intros Hm. destruct m as [|p|p]; try lia. apply Zdigits2_spec. Qed.

Lemma Zdigits2_mono (m n : Z) : 0 < m -> m <= n -> Zdigits2 m <= Zdigits2 n.
Proof.
  intros Hm Hle. apply Zdigits2_le; [exact Hm| |].
  - pose proof (Zdigits2_positive n). lia.
  - pose proof (Zdigits2_lt_pow n). lia.
Qed.

(** One shift to the right halves the mantissa. *)
Lemma shr_1_m (mrs : shr_record) :
  0 <= shr_m mrs -> shr_m (shr_1 mrs) = shr_m mrs / 2.
Proof.
  destruct mrs as [m r s]. cbn [shr_m shr_1]. intros Hm.
  destruct m as [|[p|p|]|p]; cbn [shr_m]; try lia.
  - reflexivity.
  - rewrite Pos2Z.inj_xI. apply (Z.div_unique _ _ _ 1); lia.
  - rewrite Pos2Z.inj_xO. apply (Z.div_unique _ _ _ 0); lia.
  - reflexivity.
Qed.

Lemma iter_shr_1_m (p : positive) :
  forall mrs : shr_record,
    0 <= shr_m mrs -> shr_m (iter_pos shr_1 p mrs) = shr_m mrs / 2 ^ Zpos p.
Proof.
  induction p as [p IH|p IH|]; intros mrs Hm; cbn [iter_pos].
  - assert (H1 : 0 <= shr_m (shr_1 mrs)).
    { rewrite shr_1_m by exact Hm. apply Z.div_pos; lia. }
    assert (H2 : 0 <= shr_m (iter_pos shr_1 p (shr_1 mrs))).
    { rewrite IH by exact H1. apply Z.div_pos; [exact H1|]. apply Z.pow_pos_nonneg; lia. }
    rewrite IH by exact H2. rewrite IH by exact H1. rewrite shr_1_m by exact Hm.
    rewrite !Z.div_div by (try apply Z.pow_pos_nonneg; lia).
    f_equal. replace (Zpos p~1) with (1 + Zpos p + Zpos p) by lia.
    rewrite !Z.pow_add_r by lia. change (2 ^ 1) with 2. lia.
  - assert (H2 : 0 <= shr_m (iter_pos shr_1 p mrs)).
    { rewrite IH by exact Hm. apply Z.div_pos; [exact Hm|]. apply Z.pow_pos_nonneg; lia. }
    rewrite IH by exact H2. rewrite IH by exact Hm.
    rewrite !Z.div_div by (try apply Z.pow_pos_nonneg; lia).
    f_equal. replace (Zpos p~0) with (Zpos p + Zpos p) by lia.
    rewrite !Z.pow_add_r by lia. lia.
  - rewrite shr_1_m by exact Hm. reflexivity.
Qed.

Lemma shr_record_of_loc_m (m : Z) (l : location) : shr_m (shr_record_of_loc m l) = m.
Proof. destruct l as [|[| |]]; reflexivity. Qed.

(** Bringing a positive mantissa to at most 53 digits. *)
Lemma shr_fexp_spec (m e : Z) (l : location) :
  0 < m -> emin prec emax <= e ->
  0 < shr_m (fst (shr_fexp prec emax m e l))
  /\ Zdigits2 (shr_m (fst (shr_fexp prec emax m e l))) <= 53
  /\ snd (shr_fexp prec emax m e l) = Z.max e (Zdigits2 m + e - 53).
Proof.
  intros Hm He. unfold shr_fexp, shr, fexp, emin, prec, emax in *.
  pose proof (Zdigits2_positive m Hm) as Hd.
  pose proof (Zdigits2_lt_pow m Hm) as Hhi.
  pose proof (Zdigits2_ge_pow m Hm) as Hlo.
  destruct (Z.max (Zdigits2 m + e - 53) (3 - 1024 - 53) - e) as [|p|p] eqn:Hn;
    cbn [fst snd].
  - rewrite shr_record_of_loc_m. split; [exact Hm|]. split; lia.
  - assert (Hp : Zpos p = Zdigits2 m - 53) by lia.
    rewrite iter_shr_1_m by (rewrite shr_record_of_loc_m; lia).
    rewrite shr_record_of_loc_m.
    assert (Hpow : 0 < 2 ^ Zpos p) by (apply Z.pow_pos_nonneg; lia).
    assert (Hsplit : 2 ^ (Zdigits2 m - 1) = 2 ^ 52 * 2 ^ Zpos p).
    { rewrite <- Z.pow_add_r by lia. f_equal. lia. }
    assert (Hsplit' : 2 ^ Zdigits2 m = 2 ^ 53 * 2 ^ Zpos p).
    { rewrite <- Z.pow_add_r by lia. f_equal. lia. }
    assert (H52 : 2 ^ 52 <= m / 2 ^ Zpos p).
    { apply Z.div_le_lower_bound; [exact Hpow|]. lia. }
    assert (H53 : m / 2 ^ Zpos p < 2 ^ 53).
    { apply Z.div_lt_upper_bound; [exact Hpow|]. lia. }
    assert (0 < 2 ^ 52) by (apply Z.pow_pos_nonneg; lia).
    split; [lia|]. split; [apply Zdigits2_le; lia|lia].
  - rewrite shr_record_of_loc_m. split; [exact Hm|]. split; lia.
Qed.

Lemma round_nearest_even_bounds (m : Z) (l : location) :
  m <= round_nearest_even m l <= m + 1.
Proof.
  unfold round_nearest_even. destruct l as [|[| |]]; try lia.
  destruct (Z.even m); lia.
Qed.

(** Rounding a positive mantissa gives a positive finite number, or
    infinity when the exponent gets too large. *)
Lemma binary_round_aux_spec (sx : bool) (m e : Z) (l : location) :
  0 < m -> emin prec emax <= e ->
  (exists m' e',
      binary_round_aux prec emax sx m e l = S754_finite sx m' e'
      /\ emin prec emax <= e' <= emax - prec
      /\ Zdigits2 (Zpos m') <= 53)
  \/ (binary_round_aux prec emax sx m e l = S754_infinity sx
      /\ emax - prec <= Z.max e (Zdigits2 m + e - 53)).
Proof.
  intros Hm He. unfold binary_round_aux.
  destruct (shr_fexp_spec m e l Hm He) as (H1 & D1 & E1).
  destruct (shr_fexp prec emax m e l) as [mrs' e1]. cbn [fst snd] in *.
  pose proof (round_nearest_even_bounds (shr_m mrs') (loc_of_shr_record mrs')) as Hr.
  set (m2 := round_nearest_even (shr_m mrs') (loc_of_shr_record mrs')) in *.
  assert (Hm2 : 0 < m2) by lia.
  assert (He1 : emin prec emax <= e1) by lia.
  assert (D2 : Zdigits2 m2 <= 54).
  { apply Zdigits2_le; [exact Hm2|lia|].
    pose proof (Zdigits2_lt_pow (shr_m mrs') H1) as Hlt.
    assert (2 ^ Zdigits2 (shr_m mrs') <= 2 ^ 53) by (apply Z.pow_le_mono_r; lia).
    change (2 ^ 54) with (2 * 2 ^ 53). lia. }
  destruct (shr_fexp_spec m2 e1 loc_Exact Hm2 He1) as (H3 & D3 & E3).
  destruct (shr_fexp prec emax m2 e1 loc_Exact) as [mrs'' e2]. cbn [fst snd] in *.
  destruct (shr_m mrs'') as [|m3|m3]; try lia.
  unfold emin, emax, prec in *.
  destruct (Z.leb_spec e2 (1024 - 53)) as [Hle|Hgt].
  - left. exists m3, e2. split; [reflexivity|]. split; [lia|exact D3].
  - right. split; [reflexivity|]. lia.
Qed.

Lemma iter_xO_mul (d p : positive) : Zpos (Pos.iter xO p d) = Zpos p * 2 ^ Zpos d.
Proof.
  revert p. induction d as [d IH|d IH|]; intros p; cbn [Pos.iter].
  - rewrite Pos2Z.inj_xO, !IH.
    replace (Zpos d~1) with (1 + Zpos d + Zpos d) by lia.
    rewrite !Z.pow_add_r by lia. change (2 ^ 1) with 2. lia.
  - rewrite !IH. replace (Zpos d~0) with (Zpos d + Zpos d) by lia.
    rewrite !Z.pow_add_r by lia. lia.
  - change (2 ^ 1) with 2. lia.
Qed.

Lemma Zdigits2_mul_pow (m k : Z) :
  0 < m -> 0 <= k -> Zdigits2 (m * 2 ^ k) <= Zdigits2 m + k.
Proof.
  intros Hm Hk. pose proof (Zdigits2_positive m Hm) as Hd.
  pose proof (Zdigits2_lt_pow m Hm) as Hlt.
  assert (Hpow : 0 < 2 ^ k) by (apply Z.pow_pos_nonneg; lia).
  apply Zdigits2_le; [nia|lia|].
  rewrite Z.pow_add_r by lia. nia.
Qed.

(** [float(n)] for a positive integer: a positive finite number, or
    [OverflowError], and this only from [2 ^ 1023] on. *)
Lemma float_of_int_positive (n : Z) :
  0 < n ->
  (exists m e,
      float_of_int n = Returns (S754_finite false m e)
      /\ emin prec emax <= e <= emax - prec
      /\ Zdigits2 (Zpos m) <= 53)
  \/ (float_of_int n = Raises OverflowError /\ 2 ^ 1023 <= n).
Proof.
  intros Hn. destruct n as [|p|p]; try lia.
  unfold float_of_int. cbn [binary_normalize]. unfold binary_round, shl_align.
  set (ex' := fexp prec emax (Zpos (digits2_pos p) + 0)).
  assert (Hex' : emin prec emax <= ex') by (unfold ex', fexp; lia).
  assert (Hex'' : ex' = Z.max (Zdigits2 (Zpos p) - 53) (emin prec emax)).
  { unfold ex', fexp, prec. cbn [Zdigits2]. f_equal; lia. }
  pose proof (Zdigits2_ge_pow (Zpos p) Hn) as Hlo.
  assert (Hbig : emax - prec <= Zdigits2 (Zpos p) - 53 -> 2 ^ 1023 <= Zpos p).
  { unfold emax, prec. intros H.
    assert (2 ^ 1023 <= 2 ^ (Zdigits2 (Zpos p) - 1)) by (apply Z.pow_le_mono_r; lia).
    lia. }
  destruct (ex' - 0) as [|d|d] eqn:Hd.
  - destruct (binary_round_aux_spec false (Zpos p) 0 loc_Exact Hn)
      as [(m' & e' & -> & He & Hm)|[-> Hinf]].
    + unfold emin, emax, prec. lia.
    + left. exists m', e'. split; [reflexivity|]. split; assumption.
    + right. split; [reflexivity|]. apply Hbig. unfold emin, emax, prec in *. lia.
  - destruct (binary_round_aux_spec false (Zpos p) 0 loc_Exact Hn)
      as [(m' & e' & -> & He & Hm)|[-> Hinf]].
    + unfold emin, emax, prec. lia.
    + left. exists m', e'. split; [reflexivity|]. split; assumption.
    + right. split; [reflexivity|]. apply Hbig. unfold emin, emax, prec in *. lia.
  - assert (Hmz : 0 < Zpos (Pos.iter xO p d)) by lia.
    pose proof (Zdigits2_mul_pow (Zpos p) (Zpos d) Hn ltac:(lia)) as Hdig.
    rewrite <- iter_xO_mul in Hdig.
    destruct (binary_round_aux_spec false (Zpos (Pos.iter xO p d)) ex' loc_Exact Hmz Hex')
      as [(m' & e' & -> & He & Hm)|[-> Hinf]].
    + left. exists m', e'. split; [reflexivity|]. split; assumption.
    + right. split; [reflexivity|]. apply Hbig. unfold emin, emax, prec in *. lia.
Qed.

Lemma div2_bounds (x : Z) : 2 * Z.div2 x <= x <= 2 * Z.div2 x + 1.
Proof. rewrite (Z.div2_odd x) at 2 3. destruct (Z.odd x); cbn [Z.b2z]; lia. Qed.

(** The square root of a positive finite number is a positive finite
    number. *)
Lemma SFsqrt_positive (m : positive) (e : Z) :
  emin prec emax <= e <= emax - prec -> Zdigits2 (Zpos m) <= 53 ->
  exists m' e', SFsqrt prec emax (S754_finite false m e) = S754_finite false m' e'.
Proof.
  intros He Hm. cbn [SFsqrt]. unfold SFsqrt_core_binary.
  pose proof (Zdigits2_positive (Zpos m) ltac:(lia)) as Hd.
  remember (Zdigits2 (Zpos m)) as d eqn:Ed.
  pose proof (div2_bounds e) as B1. pose proof (div2_bounds (d + e + 1)) as B2.
  remember (Z.min (fexp prec emax (Z.div2 (d + e + 1))) (Z.div2 e)) as e' eqn:He'.
  unfold fexp, emin, emax, prec in He, He'.
  remember (e - 2 * e') as s eqn:Es.
  assert (Hs : 0 <= s) by lia.
  remember (match s with
            | 0 => Zpos m
            | Zpos _ => Z.shiftl (Zpos m) s
            | Zneg _ => 0
            end) as m' eqn:Em'.
  assert (Hm' : m' = Zpos m * 2 ^ s).
  { rewrite Em'. destruct s as [|p|p]; try lia.
    apply Z.shiftl_mul_pow2. lia. }
  assert (Hm'pos : 0 < m').
  { rewrite Hm'. assert (0 < 2 ^ s) by (apply Z.pow_pos_nonneg; lia). nia. }
  pose proof (Z.sqrtrem_spec m' ltac:(lia)) as Hsq.
  destruct (Z.sqrtrem m') as [q r].
  assert (Hq : 0 < q) by nia.
  assert (Hqm : q <= m') by nia.
  assert (Hdq : Zdigits2 q <= d + s).
  { etransitivity; [apply Zdigits2_mono; [exact Hq|exact Hqm]|].
    rewrite Hm', Ed. apply Zdigits2_mul_pow; lia. }
  destruct (binary_round_aux_spec false q e'
              (if r =? 0 then loc_Exact else loc_Inexact (if r <=? q then Lt else Gt)) Hq)
    as [(m'' & e'' & -> & _)|[_ Hinf]].
  - unfold emin, emax, prec. lia.
  - exists m'', e''. reflexivity.
  - exfalso. unfold emax, prec in Hinf. lia.
Qed.

(** [math.sqrt] of a positive integer: a positive finite number, or
    [OverflowError], and this only from [2 ^ 1023] on. *)
Lemma math_sqrt_positive (n : Z) :
  0 < n ->
  (exists m e, math_sqrt n = Returns (S754_finite false m e))
  \/ (math_sqrt n = Raises OverflowError /\ 2 ^ 1023 <= n).
Proof.
  intros Hn. unfold math_sqrt.
  destruct (float_of_int_positive n Hn) as [(m & e & -> & He & Hm)|[-> Hbig]].
  - left. cbn [bind]. destruct (SFsqrt_positive m e He Hm) as (m' & e' & ->).
    exists m', e'. reflexivity.
  - right. split; [reflexivity|exact Hbig].
Qed.

Lemma math_sqrt_zero : math_sqrt 0 = Returns (S754_zero false).
Proof. reflexivity. Qed.

Lemma sqdist_nonneg (p t : point) : 0 <= sqdist p t.
Proof.
  unfold sqdist. rewrite !Z.pow_2_r.
  pose proof (Z.square_nonneg (fst p - fst t)).
  pose proof (Z.square_nonneg (snd p - snd t)). lia.
Qed.

Lemma sqdist_self (p : point) : sqdist p p = 0.
Proof. unfold sqdist. rewrite !Z.sub_diag. reflexivity. Qed.

Lemma sqdist_zero (p q : point) : sqdist p q <= 0 -> p = q.
Proof.
  unfold sqdist. rewrite !Z.pow_2_r. destruct p as [p0 p1], q as [q0 q1].
  cbn [fst snd]. intros H.
  pose proof (Z.square_nonneg (p0 - q0)). pose proof (Z.square_nonneg (p1 - q1)).
  assert ((p0 - q0) * (p0 - q0) = 0) by lia.
  assert ((p1 - q1) * (p1 - q1) = 0) by lia.
  f_equal; nia.
Qed.

(** Points with coordinates below [2 ^ 510] in absolute value are at a
    squared distance below [2 ^ 1023]. *)
Lemma sqdist_below (p t : point) :
  Z.abs (fst p) < 2 ^ 510 -> Z.abs (snd p) < 2 ^ 510 ->
  Z.abs (fst t) < 2 ^ 510 -> Z.abs (snd t) < 2 ^ 510 ->
  sqdist p t < 2 ^ 1023.
Proof.
  assert (E : 2 ^ 1023 = 2 * ((2 * 2 ^ 510) * (2 * 2 ^ 510))) by (vm_compute; reflexivity).
  rewrite E. clear E. unfold sqdist. rewrite !Z.pow_2_r.
  generalize (2 ^ 510). intros P H1 H2 H3 H4.
  assert (A : - (2 * P) < fst p - fst t < 2 * P) by lia.
  assert (B : - (2 * P) < snd p - snd t < 2 * P) by lia.
  assert ((fst p - fst t) * (fst p - fst t) < (2 * P) * (2 * P)) by nia.
  assert ((snd p - snd t) * (snd p - snd t) < (2 * P) * (2 * P)) by nia.
  lia.
Qed.

Lemma euclid_self (p : point) : euclid p p = Returns (S754_zero false).
Proof. unfold euclid. rewrite sqdist_self. reflexivity. Qed.

(** The distance of two points: zero for equal points, a positive finite
    number for different ones, or [OverflowError], and this only when the
    squared distance is [2 ^ 1023] or more. *)
Lemma euclid_cases (p t : point) :
  (p = t /\ euclid p t = Returns (S754_zero false))
  \/ (p <> t /\ exists m e, euclid p t = Returns (S754_finite false m e))
  \/ (p <> t /\ euclid p t = Raises OverflowError /\ 2 ^ 1023 <= sqdist p t).
Proof.
  pose proof (sqdist_nonneg p t) as H0.
  destruct (Z.eq_dec (sqdist p t) 0) as [Hz|Hz].
  - left. assert (p = t) as -> by (apply sqdist_zero; lia).
    split; [reflexivity|apply euclid_self].
  - assert (Hne : p <> t) by (intros ->; apply Hz, sqdist_self).
    unfold euclid.
    destruct (math_sqrt_positive (sqdist p t)) as [(m & e & H)|[H Hbig]]; [lia| |].
    + right. left. split; [exact Hne|]. exists m, e. exact H.
    + right. right. split; [exact Hne|]. split; [exact H|exact Hbig].
Qed.

Lemma euclid_raises (p t : point) (ex : exn) :
  euclid p t = Raises ex -> ex = OverflowError /\ 2 ^ 1023 <= sqdist p t.
Proof.
  intros H.
  destruct (euclid_cases p t) as [[_ E]|[(_ & m & e & E)|(_ & E & Hbig)]];
    rewrite E in H; try discriminate H.
  injection H as <-. split; [reflexivity|exact Hbig].
Qed.

Lemma euclid_zero (p t : point) (s : bool) :
  euclid p t = Returns (S754_zero s) -> p = t.
Proof.
  intros H.
  destruct (euclid_cases p t) as [[E _]|[(_ & m & e & E)|(_ & E & _)]];
    [exact E|rewrite E in H; discriminate H|rewrite E in H; discriminate H].
Qed.

(** What the search raises is [OverflowError], for a point whose squared
    distance to the target is [2 ^ 1023] or more. *)
Lemma euclid_raises_in {A : Type} (l : list A) (f : A -> point) (t : point) (ex : exn) :
  (exists x, In x l /\ euclid (f x) t = Raises ex) ->
  ex = OverflowError
  /\ exists x, In x l /\ euclid (f x) t = Raises OverflowError
               /\ 2 ^ 1023 <= sqdist (f x) t.
Proof.
  intros (x & Hin & H). destruct (euclid_raises _ _ _ H) as [-> Hbig].
  split; [reflexivity|]. exists x. split; [exact Hin|]. split; [exact H|exact Hbig].
Qed.

End DoubleRounding.

Section DoubleSearch.

Import SpecFloat.
Import Double.

Context {Data : Type}.

Implicit Types (node : KDNode Data) (target : point) (b : best_t Data).

(** The log of a search that returns: the nodes whose distance has been
    computed, with these distances; the running best is updated once per
    entry, in order. *)
Lemma double_trace_returns node target :
  forall depth (st st' : best_t Data * list (point * Data)),
    _nn_trace node target depth st = Returns st' ->
    exists vs : list (point * Data * dist),
      snd st' = snd st ++ map fst vs
      /\ Forall (fun v => euclid (fst (fst v)) target = Returns (snd v)) vs
      /\ fst st' = fold_left visit vs (fst st)
      /\ incl (map fst vs) (nodes node)
      /\ hd_error (map fst vs) = hd_error (nodes node).
Proof.
  induction node as [|q e l IHl r IHr]; intros depth st st' H.
  - injection H as <-. exists []. cbn. rewrite app_nil_r.
    repeat split; [constructor|apply incl_nil_l].
  - cbn [_nn_trace] in H. unfold update_best in H.
    destruct (euclid q target) as [d|ex] eqn:Hd; cbn [bind] in H; [|discriminate].
    change (if dist_ltb d (snd (fst st)) then (Some (q, e), d) else fst st)
      with (visit (fst st) (q, e, d)) in H.
    set (st1 := (visit (fst st) (q, e, d), snd st ++ [(q, e)])) in H.
    destruct (coord (depth mod 2) target <? coord (depth mod 2) q).
    + destruct (_nn_trace l target (depth + 1) st1) as [st2|ex] eqn:H2;
        cbn [bind] in H; [|discriminate].
      apply IHl in H2 as (v1 & L1 & C1 & F1 & I1 & _).
      destruct (abs_ltb _ _).
      * apply IHr in H as (v2 & L2 & C2 & F2 & I2 & _).
        exists ((q, e, d) :: v1 ++ v2).
        rewrite L2, L1, F2, F1. unfold st1. cbn [fst snd map fold_left nodes].
        rewrite map_app, fold_left_app, <- !app_assoc.
        split; [reflexivity|]. split; [constructor; [exact Hd|apply Forall_app; split; assumption]|].
        split; [reflexivity|]. split; [|reflexivity].
        apply incl_cons; [left; reflexivity|]. apply incl_tl.
        apply incl_app; [apply incl_appl|apply incl_appr]; assumption.
      * injection H as <-. exists ((q, e, d) :: v1).
        rewrite L1, F1. unfold st1. cbn [fst snd map fold_left nodes].
        rewrite <- !app_assoc.
        split; [reflexivity|]. split; [constructor; [exact Hd|assumption]|].
        split; [reflexivity|]. split; [|reflexivity].
        apply incl_cons; [left; reflexivity|]. apply incl_tl.
        apply incl_appl. assumption.
    + destruct (_nn_trace r target (depth + 1) st1) as [st2|ex] eqn:H2;
        cbn [bind] in H; [|discriminate].
      apply IHr in H2 as (v1 & L1 & C1 & F1 & I1 & _).
      destruct (abs_ltb _ _).
      * apply IHl in H as (v2 & L2 & C2 & F2 & I2 & _).
        exists ((q, e, d) :: v1 ++ v2).
        rewrite L2, L1, F2, F1. unfold st1. cbn [fst snd map fold_left nodes].
        rewrite map_app, fold_left_app, <- !app_assoc.
        split; [reflexivity|]. split; [constructor; [exact Hd|apply Forall_app; split; assumption]|].
        split; [reflexivity|]. split; [|reflexivity].
        apply incl_cons; [left; reflexivity|]. apply incl_tl.
        apply incl_app; [apply incl_appr|apply incl_appl]; assumption.
      * injection H as <-. exists ((q, e, d) :: v1).
        rewrite L1, F1. unfold st1. cbn [fst snd map fold_left nodes].
        rewrite <- !app_assoc.
        split; [reflexivity|]. split; [constructor; [exact Hd|assumption]|].
        split; [reflexivity|]. split; [|reflexivity].
        apply incl_cons; [left; reflexivity|]. apply incl_tl.
        apply incl_appr. assumption.
Qed.

(** The search raises only what the distance of a stored point raises. *)
Lemma double_trace_raises node target :
  forall depth (st : best_t Data * list (point * Data)) ex,
    _nn_trace node target depth st = Raises ex ->
    exists x, In x (nodes node) /\ euclid (fst x) target = Raises ex.
Proof.
  induction node as [|q e l IHl r IHr]; intros depth st ex H; [discriminate|].
  cbn [_nn_trace] in H. unfold update_best in H.
  destruct (euclid q target) as [d|ex'] eqn:Hd; cbn [bind] in H.
  - cbn [nodes].
    assert (Hl : forall depth st, _nn_trace l target depth st = Raises ex ->
                 exists x, In x ((q, e) :: nodes l ++ nodes r)
                           /\ euclid (fst x) target = Raises ex).
    { intros dp s0 H0. apply IHl in H0 as (x & Hx & Ex). exists x.
      split; [right; apply in_or_app; left; exact Hx|exact Ex]. }
    assert (Hr : forall depth st, _nn_trace r target depth st = Raises ex ->
                 exists x, In x ((q, e) :: nodes l ++ nodes r)
                           /\ euclid (fst x) target = Raises ex).
    { intros dp s0 H0. apply IHr in H0 as (x & Hx & Ex). exists x.
      split; [right; apply in_or_app; right; exact Hx|exact Ex]. }
    destruct (coord (depth mod 2) target <? coord (depth mod 2) q).
    + destruct (_nn_trace l target (depth + 1) _) as [st2|ex2] eqn:H2; cbn [bind] in H.
      * destruct (abs_ltb _ _); [eapply Hr; exact H|discriminate].
      * injection H as ->. eapply Hl; exact H2.
    + destruct (_nn_trace r target (depth + 1) _) as [st2|ex2] eqn:H2; cbn [bind] in H.
      * destruct (abs_ltb _ _); [eapply Hl; exact H|discriminate].
      * injection H as ->. eapply Hr; exact H2.
  - injection H as ->. exists (q, e). split; [left; reflexivity|exact Hd].
Qed.

(** The log does not influence the search. *)
Lemma double_trace_fst node target :
  forall depth (st : best_t Data * list (point * Data)),
    omap fst (_nn_trace node target depth st)
    = _nearest_neighbor_recursive node target depth (fst st).
Proof.
  induction node as [|q e l IHl r IHr]; intros depth st; [reflexivity|].
  cbn [_nn_trace _nearest_neighbor_recursive]. unfold update_best.
  destruct (euclid q target) as [d|ex]; cbn [bind omap]; [|reflexivity].
  set (b1 := if dist_ltb d (snd (fst st)) then (Some (q, e), d) else fst st).
  destruct (coord (depth mod 2) target <? coord (depth mod 2) q).
  - pose proof (IHl (depth + 1)%nat (b1, snd st ++ [(q, e)])) as E.
    cbn [fst] in E. rewrite <- E. clear E.
    destruct (_nn_trace l target (depth + 1) _) as [st2|ex]; cbn [bind omap]; [|reflexivity].
    destruct (abs_ltb _ _); [apply IHr|reflexivity].
  - pose proof (IHr (depth + 1)%nat (b1, snd st ++ [(q, e)])) as E.
    cbn [fst] in E. rewrite <- E. clear E.
    destruct (_nn_trace r target (depth + 1) _) as [st2|ex]; cbn [bind omap]; [|reflexivity].
    destruct (abs_ltb _ _); [apply IHl|reflexivity].
Qed.

(** Updating only on a strictly smaller distance keeps the first of the
    entries at the least distance. *)
Lemma double_fold_first_minimum (vs : list (point * Data * dist)) b :
  nonneg (snd b) -> Forall (fun v => nonneg (snd v)) vs ->
  (fold_left visit vs b = b
   /\ Forall (fun y => dist_leb (snd b) (snd y) = true) vs)
  \/ (exists pre x post,
        vs = pre ++ x :: post
        /\ fold_left visit vs b = (Some (fst x), snd x)
        /\ dist_ltb (snd x) (snd b) = true
        /\ Forall (fun y => dist_ltb (snd x) (snd y) = true) pre
        /\ Forall (fun y => dist_leb (snd x) (snd y) = true) post).
Proof.
  intros Hb Hvs. revert b Hb.
  induction Hvs as [|v vs Hv Hvs IH]; intros b Hb.
  - left. split; [reflexivity|constructor].
  - cbn [fold_left].
    assert (Hvb : nonneg (snd (visit b v))).
    { unfold visit. destruct (dist_ltb (snd v) (snd b)); assumption. }
    destruct (IH (visit b v) Hvb)
      as [[-> Hall]|(pre & x & post & -> & -> & Hlt & Hpre & Hpost)];
      unfold visit in *;
      destruct (dist_ltb (snd v) (snd b)) eqn:Hlv; cbn [fst snd] in *.
    + right. exists [], v, vs. split; [reflexivity|].
      split; [reflexivity|]. split; [exact Hlv|]. split; [constructor|exact Hall].
    + left. split; [reflexivity|].
      constructor; [apply double_ltb_false_leb; exact Hlv|exact Hall].
    + assert (Hx : nonneg (snd x)).
      { apply Forall_app in Hvs as [_ Hvs]. inversion Hvs; assumption. }
      right. exists (v :: pre), x, post. split; [reflexivity|].
      split; [reflexivity|].
      split; [eapply double_ltb_trans; [| | |exact Hlt|exact Hlv]; assumption|].
      split; [constructor; assumption|exact Hpost].
    + assert (Hx : nonneg (snd x)).
      { apply Forall_app in Hvs as [_ Hvs]. inversion Hvs; assumption. }
      right. exists (v :: pre), x, post. split; [reflexivity|].
      split; [reflexivity|]. split; [exact Hlt|].
      split; [|exact Hpost]. constructor; [|exact Hpre].
      eapply double_ltb_leb_trans; [| | |exact Hlt|apply double_ltb_false_leb; exact Hlv];
        assumption.
Qed.

(** What [nearest_neighbor] does: it raises [OverflowError] for the
    distance of a stored point, or returns nothing on the empty tree, or
    returns the first of the visited nodes at the least computed distance. *)
Lemma double_nearest_neighbor_first_minimum (t : KDTree Data) target :
  match nearest_neighbor t target with
  | Raises ex =>
      ex = OverflowError
      /\ exists x, In x (nodes (root t)) /\ euclid (fst x) target = Raises OverflowError
                   /\ 2 ^ 1023 <= sqdist (fst x) target
  | Returns None => root t = Nil
  | Returns (Some (p, d, dd)) =>
      exists visited,
        nn_visits t target = Returns visited
        /\ incl visited (nodes (root t))
        /\ hd_error visited = hd_error (nodes (root t))
        /\ first_minimum target visited (p, d) dd
  end.
Proof.
  unfold nearest_neighbor, nn_visits. destruct (root t) as [|q e l r] eqn:Hroot.
  - reflexivity.
  - pose proof (double_trace_fst (Node q e l r) target 0 (best_init, [])) as E.
    cbn [fst] in E. rewrite <- E. clear E.
    destruct (_nn_trace (Node q e l r) target 0 (best_init, [])) as [st'|ex] eqn:H.
    + apply double_trace_returns in H as (vs & L & C & F & Hincl & Hd).
      cbn [omap bind fst snd app] in *. rewrite F.
      assert (Hfin : Forall (fun v : point * Data * dist => finite_nonneg (snd v)) vs).
      { eapply Forall_impl; [exact C|]. intros v Hv. eapply euclid_returns; exact Hv. }
      assert (Hnn : Forall (fun v : point * Data * dist => nonneg (snd v)) vs).
      { eapply Forall_impl; [exact Hfin|]. intros v. apply finite_nonneg_nonneg. }
      destruct (double_fold_first_minimum vs best_init I Hnn)
        as [[Heq Hall]|(pre & x & post & -> & Heq & Hlt & Hpre & Hpost)].
      * exfalso. destruct vs as [|v vs']; [discriminate Hd|].
        inversion Hall as [|? ? Hv _]. inversion Hfin as [|? ? Hf _].
        pose proof (finite_ltb_inf _ Hf) as Hlt.
        unfold dist_leb in Hv. unfold dist_ltb in Hlt. cbn [best_init snd] in Hv.
        rewrite Hlt in Hv. discriminate Hv.
      * rewrite Heq. unfold best_result. cbn [fst snd]. destruct x as [[p d] dd].
        cbn [fst snd] in *. exists (snd st').
        split; [reflexivity|]. rewrite L. split; [exact Hincl|]. split; [exact Hd|].
        apply Forall_app in C as [Cpre C]. inversion C as [|? ? Cx Cpost]; subst.
        exists (map fst pre), (map fst post).
        split; [rewrite map_app; reflexivity|]. split; [exact Cx|].
        split.
        -- apply List.Forall_forall. intros y Hy. apply in_map_iff in Hy as (v & <- & Hv).
           exists (snd v). split.
           ++ rewrite List.Forall_forall in Cpre.
              apply (Cpre v). exact Hv.
           ++ rewrite List.Forall_forall in Hpre.
              apply (Hpre v). exact Hv.
        -- apply List.Forall_forall. intros y Hy. apply in_map_iff in Hy as (v & <- & Hv).
           exists (snd v). split.
           ++ rewrite List.Forall_forall in Cpost.
              apply (Cpost v). exact Hv.
           ++ rewrite List.Forall_forall in Hpost.
              apply (Hpost v). exact Hv.
    + cbn [omap bind]. apply (euclid_raises_in _ fst).
      eapply double_trace_raises. exact H.
Qed.

(** The pair returned is stored in the tree, with its computed distance,
    which is not greater than the computed distance of the root. *)
Lemma double_nearest_neighbor_stored (t : KDTree Data) target :
  match nearest_neighbor t target with
  | Raises ex =>
      ex = OverflowError
      /\ exists x, In x (nodes (root t)) /\ euclid (fst x) target = Raises OverflowError
                   /\ 2 ^ 1023 <= sqdist (fst x) target
  | Returns None => root t = Nil
  | Returns (Some (p, d, dd)) =>
      In (p, d) (nodes (root t)) /\ euclid p target = Returns dd
      /\ match root t with
         | Nil => False
         | Node q _ _ _ => exists dq, euclid q target = Returns dq /\ dist_leb dd dq = true
         end
  end.
Proof.
  pose proof (double_nearest_neighbor_first_minimum t target) as H.
  destruct (nearest_neighbor t target) as [[[[p d] dd]|]|ex]; [|exact H|exact H].
  destruct H as (visited & _ & Hincl & Hhd & (pre & post & -> & Hdd & Hpre & Hpost)).
  cbn [fst] in Hdd.
  assert (Hnn : nonneg dd).
  { apply finite_nonneg_nonneg. eapply euclid_returns. exact Hdd. }
  split; [apply Hincl; apply in_or_app; right; left; reflexivity|].
  split; [exact Hdd|].
  destruct (root t) as [|q e l r]; cbn [nodes hd_error] in Hhd.
  - destruct pre; discriminate Hhd.
  - destruct pre as [|y pre']; cbn [List.app hd_error] in Hhd.
    + injection Hhd as -> ->. exists dd. split; [exact Hdd|].
      apply double_leb_refl. exact Hnn.
    + injection Hhd as ->. inversion Hpre as [|? ? (dy & Hy & Hlt) _].
      cbn [fst] in Hy. exists dy. split; [exact Hy|].
      apply double_ltb_leb; [exact Hnn| |exact Hlt].
      apply finite_nonneg_nonneg. eapply euclid_returns. exact Hy.
Qed.

(** Once the best distance is zero the search changes nothing. *)
Lemma double_search_keeps_zero node target :
  forall depth b,
    (exists s, snd b = S754_zero s) ->
    match _nearest_neighbor_recursive node target depth b with
    | Returns b' => b' = b
    | Raises _ => True
    end.
Proof.
  induction node as [|q e l IHl r IHr]; intros depth b Hz; [reflexivity|].
  cbn [_nearest_neighbor_recursive]. unfold update_best.
  destruct (euclid q target) as [d|ex] eqn:Hd; cbn [bind]; [|exact I].
  assert (Hlt : dist_ltb d (snd b) = false).
  { destruct Hz as [s ->]. apply euclid_returns in Hd.
    destruct d as [[|]|[|]| |[|] ? ?]; cbn in Hd; try contradiction; reflexivity. }
  rewrite Hlt.
  destruct (coord (depth mod 2) target <? coord (depth mod 2) q).
  - pose proof (IHl (depth + 1)%nat b Hz) as H1.
    destruct (_nearest_neighbor_recursive l target (depth + 1) b) as [b1|ex];
      cbn [bind]; [|exact I].
    subst b1. destruct (abs_ltb _ _); [apply IHr; exact Hz|reflexivity].
  - pose proof (IHr (depth + 1)%nat b Hz) as H1.
    destruct (_nearest_neighbor_recursive r target (depth + 1) b) as [b1|ex];
      cbn [bind]; [|exact I].
    subst b1. destruct (abs_ltb _ _); [apply IHl; exact Hz|reflexivity].
Qed.

(** The search for a point goes down the path along which the point has
    been inserted, and comes back with the distance zero. *)
Lemma double_search_after_insert node (pt : point) (data : Data) :
  forall depth b,
    nonneg (snd b) ->
    match _nearest_neighbor_recursive (_insert_recursive node pt data depth) pt depth b with
    | Returns b' => exists s, snd b' = S754_zero s
    | Raises _ => True
    end.
Proof.
  induction node as [|q e l IHl r IHr]; intros depth b Hb.
  - cbn [_insert_recursive _nearest_neighbor_recursive]. unfold update_best.
    rewrite euclid_self. cbn [bind]. rewrite Z.ltb_irrefl. cbn [bind].
    assert (Hz : exists s, snd (if dist_ltb (S754_zero false) (snd b)
                                then (Some (pt, data), S754_zero false) else b)
                           = S754_zero s).
    { destruct b as [bp bd]. cbn [snd] in *.
      destruct (dist_ltb (S754_zero false) bd) eqn:Hlt; [exists false; reflexivity|].
      cbn [snd].
      destruct bd as [s|[|]| |[|] ? ?]; cbn in Hb, Hlt;
        try contradiction; try discriminate Hlt. exists s. reflexivity. }
    destruct (abs_ltb _ _); exact Hz.
  - cbn [_insert_recursive].
    destruct (coord (depth mod 2) pt <? coord (depth mod 2) q) eqn:Hc;
      cbn [_nearest_neighbor_recursive]; unfold update_best;
      (destruct (euclid q pt) as [d|ex] eqn:Hd; cbn [bind]; [|exact I]);
      rewrite Hc;
      (assert (Hb1 : nonneg (snd (if dist_ltb d (snd b) then (Some (q, e), d) else b)))
        by (destruct (dist_ltb d (snd b)); [|exact Hb];
            apply finite_nonneg_nonneg; eapply euclid_returns; exact Hd)).
    + pose proof (IHl (depth + 1)%nat _ Hb1) as H1.
      destruct (_nearest_neighbor_recursive _ pt (depth + 1) _) as [b2|ex];
        cbn [bind]; [|exact I].
      destruct (abs_ltb _ _); [|exact H1].
      pose proof (double_search_keeps_zero r pt (depth + 1)%nat b2 H1) as H2.
      destruct (_nearest_neighbor_recursive r pt (depth + 1) b2) as [b3|ex];
        [subst b3; exact H1|exact I].
    + pose proof (IHr (depth + 1)%nat _ Hb1) as H1.
      destruct (_nearest_neighbor_recursive _ pt (depth + 1) _) as [b2|ex];
        cbn [bind]; [|exact I].
      destruct (abs_ltb _ _); [|exact H1].
      pose proof (double_search_keeps_zero l pt (depth + 1)%nat b2 H1) as H2.
      destruct (_nearest_neighbor_recursive l pt (depth + 1) b2) as [b3|ex];
        [subst b3; exact H1|exact I].
Qed.

(** After [insert], the search for the inserted point finds a node at that
    point, at distance zero. *)
Lemma double_nearest_neighbor_after_insert (t : KDTree Data) (pt : point) (data : Data) :
  match nearest_neighbor (insert t pt data) pt with
  | Raises ex =>
      ex = OverflowError
      /\ exists x, In x (nodes (root (insert t pt data)))
                   /\ euclid (fst x) pt = Raises OverflowError
                   /\ 2 ^ 1023 <= sqdist (fst x) pt
  | Returns None => False
  | Returns (Some (p, d, dd)) =>
      p = pt /\ In (pt, d) (nodes (root (insert t pt data))) /\ dd = S754_zero false
  end.
Proof.
  pose proof (double_nearest_neighbor_stored (insert t pt data) pt) as H.
  pose proof (double_search_after_insert (root t) pt data 0 best_init I) as Hz.
  unfold nearest_neighbor, insert in *. cbn [root] in *.
  destruct (_insert_recursive (root t) pt data 0) as [|q e l r] eqn:Hroot.
  { destruct (root t); cbn in Hroot; [discriminate Hroot|].
    destruct (_ <? _) in Hroot; discriminate Hroot. }
  destruct (_nearest_neighbor_recursive (Node q e l r) pt 0 best_init)
    as [[[[p d]|] dd]|ex]; cbn [bind best_result fst snd] in *.
  - destruct H as (Hin & Hdd & _). destruct Hz as [s ->].
    pose proof (euclid_zero _ _ _ Hdd) as ->.
    rewrite euclid_self in Hdd. injection Hdd as <-.
    split; [reflexivity|]. split; [exact Hin|reflexivity].
  - discriminate H.
  - exact H.
Qed.

End DoubleSearch.

Section DoubleStore.

Import Double.

Context {Data : Type}.

Implicit Types (s : gmap loc (obj Data)) (node : option loc) (t : KDNode Data).

Lemma double_not_a_node_fresh s : not_a_node s (fresh (dom s)).
Proof.
  intros q e hl hr H.
  apply (is_fresh (dom s)). apply elem_of_dom. rewrite H. eauto.
Qed.

Lemma double_lookup_node_other s (l best : loc) (o : obj Data) q e hl hr :
  not_a_node s best -> s !! l = Some (ONode q e hl hr) ->
  <[best := o]> s !! l = Some (ONode q e hl hr).
Proof.
  intros Hres Hl. rewrite lookup_insert_ne; [exact Hl|].
  intros ->. exact (Hres _ _ _ _ Hl).
Qed.

Lemma double_repr_insert_other s (best : loc) (o : obj Data) node t :
  not_a_node s best -> repr s node t -> repr (<[best := o]> s) node t.
Proof.
  intros Hres Hrepr. induction Hrepr as [|l q e hl hr tl tr Hl _ IHl _ IHr].
  - constructor.
  - econstructor; [|exact IHl|exact IHr].
    apply double_lookup_node_other; assumption.
Qed.

Lemma double_objects_kept_fresh s (o : obj Data) :
  objects_kept s (<[fresh (dom s) := o]> s).
Proof.
  intros l o' Hl. rewrite lookup_insert_ne; [exact Hl|].
  intros <-. apply (is_fresh (dom s)). apply elem_of_dom. rewrite Hl. eauto.
Qed.

(** On a store that holds the tree [t], the search returns or raises as
    the search on [t] does, and writes to the list [best] only; when it
    returns, [best] holds what the search on [t] returns. *)
Lemma double_h_nearest_neighbor_recursive_refines target (best : loc) s :
  not_a_node s best ->
  forall fuel node t depth (b : best_t Data),
    repr s node t -> (height t < fuel)%nat ->
    exists b',
      h_nearest_neighbor_recursive fuel node target depth best (<[best := OBest b]> s)
      = Some (omap (fun _ => tt) (_nearest_neighbor_recursive t target depth b),
              <[best := OBest b']> s)
      /\ (forall b'', _nearest_neighbor_recursive t target depth b = Returns b'' -> b' = b'').
Proof.
  intros Hbest. induction fuel as [|fuel IH]; intros node t depth b Hrepr Hfuel; [lia|].
  destruct Hrepr as [|l q e hl hr tl tr Hl Hrl Hrr].
  - exists b. split; [reflexivity|]. intros b'' [= <-]. reflexivity.
  - cbn [h_nearest_neighbor_recursive _nearest_neighbor_recursive height] in *.
    unfold m_bind at 1. unfold load_node.
    rewrite (double_lookup_node_other s l best _ q e hl hr Hbest Hl).
    unfold m_bind at 1. unfold m_lift. unfold update_best.
    destruct (euclid q target) as [d|ex]; cbn [bind omap].
    2:{ exists b. split; [reflexivity|discriminate]. }
    unfold m_bind at 1. unfold load_best at 1. rewrite lookup_insert_eq.
    unfold m_bind at 1.
    set (b1 := if dist_ltb d (snd b) then (Some (q, e), d) else b).
    assert (H1 : (if dist_ltb d (snd b)
                  then store_best best (Some (q, e), d) else m_ret tt)
                   (<[best := OBest b]> s)
                 = Some (Returns tt, <[best := OBest b1]> s)).
    { unfold b1. destruct (dist_ltb d (snd b)); [|reflexivity].
      unfold store_best. rewrite lookup_insert_eq, insert_insert_eq. reflexivity. }
    rewrite H1. clear H1.
    destruct (coord (depth mod 2) target <? coord (depth mod 2) q).
    + unfold m_bind at 1.
      destruct (IH hl tl (depth + 1)%nat b1 Hrl) as (b2' & E2 & U2); [lia|].
      rewrite E2. clear E2.
      destruct (_nearest_neighbor_recursive tl target (depth + 1) b1) as [b2|ex];
        cbn [bind omap].
      2:{ exists b2'. split; [reflexivity|discriminate]. }
      rewrite (U2 b2 eq_refl).
      unfold m_bind at 1. unfold load_best at 1. rewrite lookup_insert_eq.
      destruct (abs_ltb _ _).
      * apply IH; [exact Hrr|lia].
      * exists b2. split; [reflexivity|]. intros b'' [= <-]. reflexivity.
    + unfold m_bind at 1.
      destruct (IH hr tr (depth + 1)%nat b1 Hrr) as (b2' & E2 & U2); [lia|].
      rewrite E2. clear E2.
      destruct (_nearest_neighbor_recursive tr target (depth + 1) b1) as [b2|ex];
        cbn [bind omap].
      2:{ exists b2'. split; [reflexivity|discriminate]. }
      rewrite (U2 b2 eq_refl).
      unfold m_bind at 1. unfold load_best at 1. rewrite lookup_insert_eq.
      destruct (abs_ltb _ _).
      * apply IH; [exact Hrl|lia].
      * exists b2. split; [reflexivity|]. intros b'' [= <-]. reflexivity.
Qed.

(** [nearest_neighbor] on the store: it returns or raises as the search on
    the tree does; the only object written is the new list [best]. *)
Lemma double_h_nearest_neighbor_refines fuel (rt : option loc) t target s :
  repr s rt t -> (height t < fuel)%nat ->
  exists s',
    h_nearest_neighbor fuel rt target s = Some (nearest_neighbor (mkTree t) target, s')
    /\ objects_kept s s' /\ repr s' rt t.
Proof.
  intros Hrepr Hfuel. unfold h_nearest_neighbor, nearest_neighbor.
  destruct Hrepr as [|l q e hl hr tl tr Hl Hrl Hrr].
  - exists s. split; [reflexivity|]. split; [intros ? ? H; exact H|constructor].
  - cbn [root].
    assert (Hrepr : repr s (Some l) (Node q e tl tr)) by (econstructor; eassumption).
    destruct (double_h_nearest_neighbor_recursive_refines target _ s
                (double_not_a_node_fresh s) fuel (Some l) _ 0 best_init Hrepr Hfuel)
      as (b' & E & U).
    exists (<[fresh (dom s) := OBest b']> s).
    split; [|split; [apply double_objects_kept_fresh
                    |apply double_repr_insert_other;
                     [apply double_not_a_node_fresh|exact Hrepr]]].
    unfold m_bind at 1. unfold alloc. unfold m_bind at 1.
    rewrite E. clear E.
    destruct (_nearest_neighbor_recursive (Node q e tl tr) target 0 best_init)
      as [bfin|ex]; cbn [bind omap]; [|reflexivity].
    rewrite (U bfin eq_refl).
    unfold m_bind, load_best. rewrite lookup_insert_eq. reflexivity.
Qed.

End DoubleStore.

(** * The statements of the specification *)

Section Statements.

Context {Data : Type}.

(** C6.  Deleting a point that no node stores returns false and leaves the
    tree as it was: same structure, same points, same payloads.  This holds
    for every tree, whether or not it satisfies the partition invariant. *)
Theorem delete_absent_unchanged (t : KDTree Data) (pt : point) :
  ~ In pt (points (root t)) -> delete t pt = Some (t, false).
Proof.
  intros Hnot. unfold delete. rewrite (delete_recursive_absent _ _ 0%nat Hnot).
  destruct t. reflexivity.
Qed.

(** C7.  [insert] always returns a tree, and over the unbounded rectangle
    [range_search] then returns the pairs it returned before together with
    the new pair, so exactly one node more; this is so for a point that is
    already stored as well.  Inserting a list of [n] pairs into the empty tree
    (the points distinct or not) gives exactly these [n] pairs.  A point whose
    coordinate along the axis of a node equals the one of the node goes to the
    right subtree of that node; the left subtree is not touched. *)
Theorem insert_adds_one_node :
  (forall (t : KDTree Data) pt data,
      Permutation (range_search (insert t pt data) unbounded_min unbounded_max)
        ((pt, data) :: range_search t unbounded_min unbounded_max))
  /\ (forall (t : KDTree Data) pt data,
        length (range_search (insert t pt data) unbounded_min unbounded_max)
        = S (length (range_search t unbounded_min unbounded_max)))
  /\ (forall items : list (point * Data),
        Permutation (range_search (insert_all items empty_tree) unbounded_min unbounded_max)
          items
        /\ length (range_search (insert_all items empty_tree) unbounded_min unbounded_max)
           = length items)
  /\ (forall q (e : Data) l r pt data depth,
        coord (depth mod 2) pt = coord (depth mod 2) q ->
        _insert_recursive (Node q e l r) pt data depth
        = Node q e l (_insert_recursive r pt data (depth + 1))).
Proof.
  assert (H1 : forall (t : KDTree Data) pt data,
             Permutation (range_search (insert t pt data) unbounded_min unbounded_max)
               ((pt, data) :: range_search t unbounded_min unbounded_max)).
  { intros t pt data. rewrite !range_search_unbounded. apply nodes_insert_perm. }
  assert (H3 : forall items : list (point * Data),
             Permutation (range_search (insert_all items empty_tree)
                            unbounded_min unbounded_max) items).
  { intros items. rewrite range_search_unbounded, nodes_insert_all_perm. reflexivity. }
  split; [exact H1|]. split; [|split].
  - intros t pt data. rewrite (Permutation_length (H1 t pt data)). reflexivity.
  - intros items. split; [apply H3|]. apply Permutation_length, H3.
  - intros q e l r pt data depth Heq. cbn [_insert_recursive].
    rewrite Heq, Z.ltb_irrefl. reflexivity.
Qed.

(** C8.  For a rectangle with some component of [min_point] strictly above
    the same component of [max_point], [range_search] returns the empty list,
    on every tree. *)
Theorem range_search_inverted_empty (t : KDTree Data) (min_point max_point : qpoint) :
  inverted min_point max_point -> range_search t min_point max_point = [].
Proof.
  intros Hinv. unfold range_search. rewrite range_search_recursive_app. cbn [app].
  apply range_found_nil. intros p.
  destruct Hinv as [H|H].
  - apply (in_rect_inverted min_point max_point 0). exact H.
  - apply (in_rect_inverted min_point max_point 1). exact H.
Qed.


(** C10.  Two runs of [nearest_neighbor] with the same target on stores
    that hold the same tree (in whatever objects) do the same: both return
    the same result, or both raise [OverflowError] because the squared
    distance of a stored point is too large for a float ([2 ^ 1023] or
    more).  On a non-empty tree the result is the first node, in the order
    in which the search computes distances (the node, then its near child,
    then its far child if the test lets it in), among those at the least
    computed distance of all visited nodes: the binary64 distance of every
    node visited before is greater, and of every node visited later is not
    smaller. *)
Theorem nearest_neighbor_deterministic (s1 s2 : gmap loc (Double.obj Data))
    (r1 r2 : option loc) (t : KDNode Data) (fuel1 fuel2 : nat) (target : point) :
  Double.repr s1 r1 t -> Double.repr s2 r2 t ->
  (height t < fuel1)%nat -> (height t < fuel2)%nat ->
  exists res s1' s2',
    Double.h_nearest_neighbor fuel1 r1 target s1 = Some (res, s1')
    /\ Double.h_nearest_neighbor fuel2 r2 target s2 = Some (res, s2')
    /\ res = Double.nearest_neighbor (mkTree t) target
    /\ match res with
       | Double.Raises ex =>
           ex = Double.OverflowError
           /\ exists x, In x (nodes t)
                        /\ Double.euclid (fst x) target = Double.Raises Double.OverflowError
                        /\ 2 ^ 1023 <= sqdist (fst x) target
       | Double.Returns None => t = Nil
       | Double.Returns (Some (p, d, dd)) =>
           exists visited,
             Double.nn_visits (mkTree t) target = Double.Returns visited
             /\ Double.first_minimum target visited (p, d) dd
       end.
Proof.
  intros H1 H2 F1 F2.
  destruct (double_h_nearest_neighbor_refines fuel1 r1 t target s1 H1 F1) as (s1' & E1 & _).
  destruct (double_h_nearest_neighbor_refines fuel2 r2 t target s2 H2 F2) as (s2' & E2 & _).
  exists (Double.nearest_neighbor (mkTree t) target), s1', s2'.
  split; [exact E1|]. split; [exact E2|]. split; [reflexivity|].
  pose proof (double_nearest_neighbor_first_minimum (mkTree t) target) as H.
  destruct (Double.nearest_neighbor (mkTree t) target) as [[[[p d] dd]|]|ex];
    [|exact H|exact H].
  destruct H as (visited & Hv & _ & _ & Hfirst).
  exists visited. split; [exact Hv|exact Hfirst].
Qed.

End Statements.

(** ** Instances of the statements above *)

Lemma delete_absent_unchanged_witness :
  ~ In (100, 100) (points (root tree_three))
  /\ delete tree_three (100, 100) = Some (tree_three, false).
Proof.
  assert (H : ~ In (100, 100) (points (root tree_three))).
  { simpl. intros H. repeat destruct H as [H|H]; try discriminate H. exact H. }
  split; [exact H|]. exact (delete_absent_unchanged tree_three (100, 100) H).
Defined.

Lemma insert_adds_one_node_witness :
  coord (0 mod 2) (5, 1) = coord (0 mod 2) (5, 5)
  /\ _insert_recursive (Node (5, 5) 1%nat (Node (3, 3) 2%nat Nil Nil) Nil) (5, 1) 3%nat 0
     = Node (5, 5) 1%nat (Node (3, 3) 2%nat Nil Nil)
         (_insert_recursive Nil (5, 1) 3%nat (0 + 1)).
Proof.
  split; [reflexivity|].
  apply (proj2 (proj2 (proj2 (@insert_adds_one_node nat)))). reflexivity.
Defined.

Lemma range_search_inverted_empty_witness :
  inverted (Fin 6, Fin 0) (Fin 2, Fin 9)
  /\ range_search tree_three (Fin 6, Fin 0) (Fin 2, Fin 9) = [].
Proof.
  assert (H : inverted (Fin 6, Fin 0) (Fin 2, Fin 9)) by (left; reflexivity).
  split; [exact H|]. exact (range_search_inverted_empty tree_three _ _ H).
Defined.


Lemma repr_store_b : repr store_b (Some 7%positive) (root tree_left_child).
Proof.
  eapply repr_node; [vm_compute; reflexivity| |apply repr_nil].
  eapply repr_node; [vm_compute; reflexivity|apply repr_nil|apply repr_nil].
Defined.


Lemma double_repr_store_a :
  Double.repr double_store_a (Some 1%positive) (root tree_left_child).
Proof.
  eapply Double.repr_node; [vm_compute; reflexivity| |apply Double.repr_nil].
  eapply Double.repr_node;
    [vm_compute; reflexivity|apply Double.repr_nil|apply Double.repr_nil].
Defined.

Lemma double_repr_store_b :
  Double.repr double_store_b (Some 7%positive) (root tree_left_child).
Proof.
  eapply Double.repr_node; [vm_compute; reflexivity| |apply Double.repr_nil].
  eapply Double.repr_node;
    [vm_compute; reflexivity|apply Double.repr_nil|apply Double.repr_nil].
Defined.

Lemma nearest_neighbor_deterministic_witness :
  Double.repr double_store_a (Some 1%positive) (root tree_left_child)
  /\ Double.repr double_store_b (Some 7%positive) (root tree_left_child)
  /\ (height (root tree_left_child) < 3)%nat
  /\ (height (root tree_left_child) < 5)%nat
  /\ exists res s1' s2',
      Double.h_nearest_neighbor 3 (Some 1%positive) (2, 5) double_store_a = Some (res, s1')
      /\ Double.h_nearest_neighbor 5 (Some 7%positive) (2, 5) double_store_b
         = Some (res, s2')
      /\ res = Double.nearest_neighbor (mkTree (root tree_left_child)) (2, 5)
      /\ match res with
         | Double.Raises ex =>
             ex = Double.OverflowError
             /\ exists x, In x (nodes (root tree_left_child))
                          /\ Double.euclid (fst x) (2, 5)
                             = Double.Raises Double.OverflowError
                          /\ 2 ^ 1023 <= sqdist (fst x) (2, 5)
         | Double.Returns None => root tree_left_child = Nil
         | Double.Returns (Some (p, d, dd)) =>
             exists visited,
               Double.nn_visits (mkTree (root tree_left_child)) (2, 5)
               = Double.Returns visited
               /\ Double.first_minimum (2, 5) visited (p, d) dd
         end.
Proof.
  assert (F1 : (height (root tree_left_child) < 3)%nat) by (simpl; lia).
  assert (F2 : (height (root tree_left_child) < 5)%nat) by (simpl; lia).
  split; [exact double_repr_store_a|]. split; [exact double_repr_store_b|].
  split; [exact F1|]. split; [exact F2|].
  exact (nearest_neighbor_deterministic double_store_a double_store_b (Some 1%positive)
           (Some 7%positive) (root tree_left_child) 3 5 (2, 5)
           double_repr_store_a double_repr_store_b F1 F2).
Defined.

(** The tie of the last instance: the target (2, 5) is at distance
    [sqrt 5] of both stored points, and the root, visited first, is
    returned. *)
Example nearest_neighbor_tie :
  euclid (3, 3) (2, 5) = euclid (4, 4) (2, 5)
  /\ nn_visits tree_left_child (2, 5) = [((3, 3), 2%nat); ((4, 4), 3%nat)]
  /\ nearest_neighbor tree_left_child (2, 5) = Some ((3, 3), 2%nat, Dsqrt 5).
Proof. repeat split. Qed.

(** The same tie on binary64 distances: both distances are the double
    nearest to the square root of 5. *)
Example double_nearest_neighbor_tie :
  Double.euclid (3, 3) (2, 5) = Double.euclid (4, 4) (2, 5)
  /\ Double.nn_visits tree_left_child (2, 5)
     = Double.Returns [((3, 3), 2%nat); ((4, 4), 3%nat)]
  /\ exists dd,
      Double.euclid (3, 3) (2, 5) = Double.Returns dd
      /\ Double.nearest_neighbor tree_left_child (2, 5)
         = Double.Returns (Some ((3, 3), 2%nat, dd)).
Proof.
  split; [vm_compute; reflexivity|]. split; [vm_compute; reflexivity|].
  eexists. split; vm_compute; reflexivity.
Qed.

(** The scenario of the test-suite of the repository. *)
Example test_scenario :
  let tree := insert_all [((2, 3), 1%nat); ((5, 4), 2%nat); ((9, 6), 3%nat);
                          ((4, 7), 4%nat); ((8, 1), 5%nat); ((7, 2), 6%nat)] empty_tree in
  nearest_neighbor tree (5, 5) = Some ((5, 4), 2%nat, Dsqrt 1)
  /\ range_search tree (Fin 2, Fin 3) (Fin 6, Fin 5) = [((2, 3), 1%nat); ((5, 4), 2%nat)]
  /\ (exists tree',
        delete tree (5, 4) = Some (tree', true)
        /\ nearest_neighbor tree' (5, 4) = Some ((7, 2), 6%nat, Dsqrt 8)
        /\ delete tree' (100, 100) = Some (tree', false)).
Proof.
  split; [reflexivity|]. split; [reflexivity|].
  eexists. split; [reflexivity|]. split; reflexivity.
Qed.

(** ** Rounding and overflow in the search

    With coordinates of the size of [10 ^ 9] the rounding of [math.sqrt]
    decides what the search returns.  In [tree_large_x] the distance of the
    root rounds to [1e9]; the test [abs(0 - 10 ** 9) < 1e9] fails, the right
    child is never looked at, and the root is returned although the right
    child is closer.  In [tree_large_y] both distances round to [1e9] and
    the root, visited first, is kept.  In [tree_huge] the radicand is too
    large to convert to a float. *)

(** X4.  The partition invariant does not make [nearest_neighbor] return a
    closest stored point.  The tree of [tree_large_x], built by two
    insertions, satisfies it; the search for (0, 0) computes the distance
    of the root only and returns the root, (10 ^ 9, 1), although
    (10 ^ 9, 0) is stored and closer.  So it is not true that on every tree
    that satisfies the invariant no stored point is closer than the one
    returned. *)
Theorem nearest_neighbor_valid_tree_not_closest :
  kd_inv (root tree_large_x) 0
  /\ In ((10 ^ 9, 0), 2%nat) (nodes (root tree_large_x))
  /\ sqdist (10 ^ 9, 0) (0, 0) < sqdist (10 ^ 9, 1) (0, 0)
  /\ Double.euclid (10 ^ 9, 1) (0, 0)
     = Double.Returns (SpecFloat.S754_finite false 8388608000000000 (-23))
  /\ Double.abs_ltb (0 - 10 ^ 9) (SpecFloat.S754_finite false 8388608000000000 (-23)) = false
  /\ Double.nn_visits tree_large_x (0, 0) = Double.Returns [((10 ^ 9, 1), 1%nat)]
  /\ Double.nearest_neighbor tree_large_x (0, 0)
     = Double.Returns (Some ((10 ^ 9, 1), 1%nat,
                             SpecFloat.S754_finite false 8388608000000000 (-23)))
  /\ ~ (forall (t : KDTree nat) (target : point),
          kd_inv (root t) 0 ->
          match Double.nearest_neighbor t target with
          | Double.Returns (Some (p, _, _)) =>
              Forall (fun x => sqdist p target <= sqdist (fst x) target) (nodes (root t))
          | _ => True
          end).
Proof.
  assert (Hinv : kd_inv (root tree_large_x) 0)
    by (apply kd_invb_spec; vm_compute; reflexivity).
  assert (Hin : In ((10 ^ 9, 0), 2%nat) (nodes (root tree_large_x)))
    by (vm_compute; right; left; reflexivity).
  assert (Hnn : Double.nearest_neighbor tree_large_x (0, 0)
                = Double.Returns (Some ((10 ^ 9, 1), 1%nat,
                                        SpecFloat.S754_finite false 8388608000000000 (-23))))
    by (vm_compute; reflexivity).
  split; [exact Hinv|]. split; [exact Hin|].
  split; [vm_compute; reflexivity|]. split; [vm_compute; reflexivity|].
  split; [vm_compute; reflexivity|]. split; [vm_compute; reflexivity|].
  split; [exact Hnn|].
  intros Hall. pose proof (Hall tree_large_x (0, 0) Hinv) as H.
  rewrite Hnn in H. rewrite List.Forall_forall in H.
  specialize (H _ Hin). vm_compute in H. apply H. reflexivity.
Qed.

Example double_nearest_neighbor_large_y :
  kd_inv (root tree_large_y) 0
  /\ sqdist (2, 10 ^ 9) (0, 0) < sqdist (3, 10 ^ 9) (0, 0)
  /\ Double.euclid (2, 10 ^ 9) (0, 0) = Double.euclid (3, 10 ^ 9) (0, 0)
  /\ Double.nn_visits tree_large_y (0, 0)
     = Double.Returns [((3, 10 ^ 9), 1%nat); ((2, 10 ^ 9), 2%nat)]
  /\ Double.nearest_neighbor tree_large_y (0, 0)
     = Double.Returns (Some ((3, 10 ^ 9), 1%nat,
                             SpecFloat.S754_finite false 8388608000000000 (-23))).
Proof.
  split; [apply kd_invb_spec; vm_compute; reflexivity|].
  repeat split; vm_compute; reflexivity.
Qed.

Example double_nearest_neighbor_overflow :
  Double.euclid (10 ^ 200, 0) (0, 0) = Double.Raises Double.OverflowError
  /\ Double.nearest_neighbor tree_huge (0, 0) = Double.Raises Double.OverflowError.
Proof. split; vm_compute; reflexivity. Qed.

(** On small integers the binary64 search does what the search with exact
    square roots does; here on a tree left by a deletion, where both
    return the root at distance 7 although (4, 4) is closer. *)
Example double_nearest_neighbor_small :
  Double.nearest_neighbor tree_left_child (10, 3)
  = Double.Returns (Some ((3, 3), 2%nat,
                          SpecFloat.S754_finite false 7881299347898368 (-50)))
  /\ nearest_neighbor tree_left_child (10, 3) = Some ((3, 3), 2%nat, Dsqrt 49).
Proof. split; vm_compute; reflexivity. Qed.

(** The search of the test-suite of the repository: the nearest neighbour
    of (5, 5) is (5, 4), at distance 1.0. *)
Example double_test_scenario :
  let tree := insert_all [((2, 3), 1%nat); ((5, 4), 2%nat); ((9, 6), 3%nat);
                          ((4, 7), 4%nat); ((8, 1), 5%nat); ((7, 2), 6%nat)] empty_tree in
  Double.nearest_neighbor tree (5, 5)
  = Double.Returns (Some ((5, 4), 2%nat,
                          SpecFloat.S754_finite false 4503599627370496 (-52)))
  /\ (exists tree' dd,
        delete tree (5, 4) = Some (tree', true)
        /\ Double.euclid (7, 2) (5, 4) = Double.Returns dd
        /\ Double.nearest_neighbor tree' (5, 4)
           = Double.Returns (Some ((7, 2), 6%nat, dd))).
Proof.
  split; [vm_compute; reflexivity|].
  eexists. eexists. split; [reflexivity|]. split; vm_compute; reflexivity.
Qed.

(** ** Where the code departs from the specification *)

Lemma reachable_tree_left_child : reachable tree_left_child.
Proof. exists ops_left_child. reflexivity. Qed.

Lemma stored_in_tree_left_child : In ((4, 4), 3%nat) (nodes (root tree_left_child)).
Proof. right. left. reflexivity. Qed.

(** C1.  The partition invariant does not survive deletion.  Deleting a
    node that has a left child only leaves, in the left subtree of the node,
    points that are not below the point copied into the node; deleting a
    node at even depth copies into it the point at the end of the left spine
    of its right subtree, which need not be the least along axis 0.  So it is
    not the case that every tree built by inserts and deletes satisfies the
    invariant. *)
Theorem delete_breaks_partition_invariant :
  (run_ops ops_left_child empty_tree = Some tree_left_child
   /\ ~ kd_inv (root tree_left_child) 0)
  /\ (run_ops ops_right_min empty_tree = Some tree_right_min
      /\ ~ kd_inv (root tree_right_min) 0)
  /\ ~ (forall t : KDTree nat, reachable t -> kd_inv (root t) 0).
Proof.
  assert (H1 : ~ kd_inv (root tree_left_child) 0).
  { intros H. apply kd_invb_spec in H. vm_compute in H. discriminate H. }
  split; [split; [reflexivity|exact H1]|]. split.
  - split; [reflexivity|].
    intros H. apply kd_invb_spec in H. vm_compute in H. discriminate H.
  - intros Hall. exact (H1 (Hall _ reachable_tree_left_child)).
Qed.

(** C2.  In a tree that satisfies the partition invariant, [_find_min] with
    target axis 0, called on the subtree at depth 1 as [_delete_recursive]
    calls it, returns (9, 1) although (5, 4) is in the subtree; called on a
    whole tree, whose root splits along axis 0, it returns (7, 1) although
    (3, 8) is in the tree.  So it is not the case that the result is minimal
    for every subtree that satisfies the invariant and every target axis. *)
Theorem find_min_axis0_not_minimal :
  (run_ops ops_three empty_tree = Some tree_three
   /\ kd_inv (root tree_three) 0
   /\ root tree_three = Node (2, 3) 1%nat Nil subtree_three
   /\ _find_min subtree_three 0 = Some ((9, 1), 3%nat)
   /\ In (5, 4) (points subtree_three)
   /\ coord 0 (5, 4) < coord 0 (9, 1))
  /\ (insert_all items_spine empty_tree = tree_spine
      /\ kd_inv (root tree_spine) 0
      /\ _find_min (root tree_spine) 0 = Some ((7, 1), 3%nat)
      /\ In (3, 8) (points (root tree_spine))
      /\ coord 0 (3, 8) < coord 0 (7, 1))
  /\ ~ (forall (sub : KDNode nat) (depth axis : nat),
          sub <> Nil -> kd_inv sub depth -> (axis < 2)%nat ->
          exists m, _find_min sub axis = Some m /\ In m (nodes sub)
                    /\ Forall (fun p => coord axis (fst m) <= coord axis p) (points sub)).
Proof.
  split; [|split].
  - split; [reflexivity|]. split; [apply kd_invb_spec; reflexivity|].
    split; [reflexivity|]. split; [reflexivity|].
    split; [left; reflexivity|reflexivity].
  - split; [reflexivity|]. split; [apply kd_invb_spec; reflexivity|].
    split; [reflexivity|]. split; [|reflexivity].
    right. right. right. left. reflexivity.
  - intros Hall.
    destruct (Hall subtree_three 1%nat 0%nat) as (m & Hm & _ & Hmin).
    + discriminate.
    + apply kd_invb_spec. reflexivity.
    + lia.
    + vm_compute in Hm. injection Hm as <-.
      inversion Hmin as [|? ? Hhead _]. vm_compute in Hhead. apply Hhead. reflexivity.
Qed.

(** C3.  After the operations of [ops_left_child] the tree stores (4, 4),
    and [delete] of (4, 4) returns false and removes nothing: the unbounded
    range search still returns both nodes.  So it is not the case that on
    every tree built by inserts and deletes the deletion of a stored point
    returns true and leaves one pair less. *)
Theorem delete_misses_stored_point :
  run_ops ops_left_child empty_tree = Some tree_left_child
  /\ In (4, 4) (points (root tree_left_child))
  /\ delete tree_left_child (4, 4) = Some (tree_left_child, false)
  /\ range_search tree_left_child unbounded_min unbounded_max
     = [((3, 3), 2%nat); ((4, 4), 3%nat)]
  /\ ~ (forall t : KDTree nat, reachable t ->
        forall pt, In pt (points (root t)) ->
        exists t', delete t pt = Some (t', true)
                   /\ S (length (range_search t' unbounded_min unbounded_max))
                      = length (range_search t unbounded_min unbounded_max)).
Proof.
  assert (Hin : In (4, 4) (points (root tree_left_child))) by (right; left; reflexivity).
  split; [reflexivity|]. split; [exact Hin|]. split; [reflexivity|].
  split; [reflexivity|].
  intros Hall.
  destruct (Hall _ reachable_tree_left_child (4, 4) Hin) as (t' & Hdel & _).
  vm_compute in Hdel. discriminate Hdel.
Qed.

(** C4.  After the operations of [ops_left_child] the tree stores (4, 4),
    which lies in the rectangle (4, 4) .. (5, 5), and [range_search] over
    this rectangle returns the empty list.  So it is not the case that on
    every tree built by inserts and deletes a stored pair is returned if and
    only if its point lies in the rectangle. *)
Theorem range_search_misses_stored_point :
  run_ops ops_left_child empty_tree = Some tree_left_child
  /\ In ((4, 4), 3%nat) (nodes (root tree_left_child))
  /\ in_rect (Fin 4, Fin 4) (Fin 5, Fin 5) (4, 4) = true
  /\ range_search tree_left_child (Fin 4, Fin 4) (Fin 5, Fin 5) = []
  /\ ~ (forall t : KDTree nat, reachable t ->
        forall x min_point max_point, In x (nodes (root t)) ->
        (In x (range_search t min_point max_point)
         <-> in_rect min_point max_point (fst x) = true)).
Proof.
  split; [reflexivity|]. split; [exact stored_in_tree_left_child|].
  split; [reflexivity|]. split; [reflexivity|].
  intros Hall.
  destruct (Hall _ reachable_tree_left_child ((4, 4), 3%nat) (Fin 4, Fin 4) (Fin 5, Fin 5)
              stored_in_tree_left_child) as [_ Hback].
  exact (Hback eq_refl).
Qed.

(** C5.  After the operations of [ops_left_child], [nearest_neighbor] of
    (10, 3) returns (3, 3) at distance 7, although the stored point (4, 4)
    is at distance [sqrt 37].  So it is not the case that on every tree built
    by inserts and deletes the distance returned is at most the distance to
    every stored point. *)
Theorem nearest_neighbor_not_closest :
  run_ops ops_left_child empty_tree = Some tree_left_child
  /\ nearest_neighbor tree_left_child (10, 3) = Some ((3, 3), 2%nat, Dsqrt 49)
  /\ In ((4, 4), 3%nat) (nodes (root tree_left_child))
  /\ euclid (4, 4) (10, 3) = Dsqrt 37
  /\ dist_ltb (euclid (4, 4) (10, 3)) (Dsqrt 49) = true
  /\ ~ (forall (t : KDTree nat) (target : point), reachable t ->
        match nearest_neighbor t target with
        | None => root t = Nil
        | Some (p, d, dd) =>
            dd = euclid p target /\ In (p, d) (nodes (root t))
            /\ Forall (fun x => dist_leb dd (euclid (fst x) target) = true) (nodes (root t))
        end).
Proof.
  split; [reflexivity|]. split; [reflexivity|].
  split; [exact stored_in_tree_left_child|]. split; [reflexivity|].
  split; [reflexivity|].
  intros Hall. pose proof (Hall tree_left_child (10, 3) reachable_tree_left_child) as H.
  change (nearest_neighbor tree_left_child (10, 3))
    with (Some ((3, 3), 2%nat, Dsqrt 49)) in H.
  destruct H as (_ & _ & Hmin). rewrite List.Forall_forall in Hmin.
  specialize (Hmin _ stored_in_tree_left_child). vm_compute in Hmin. discriminate Hmin.
Qed.

(** * Further properties of the tree *)

Section MoreTheory.

Context {Data : Type}.

Implicit Types (node l r : KDNode Data) (t : KDTree Data) (p q pt : point)
  (d e : Data) (depth : nat).

Lemma filter_none {A : Type} (f : A -> bool) (xs : list A) :
  (forall x, In x xs -> f x = false) -> List.filter f xs = [].
Proof.
  induction xs as [|x xs IH]; intros Hall; [reflexivity|].
  cbn [List.filter]. rewrite (Hall x) by (left; reflexivity).
  apply IH. intros y Hy. apply Hall. right. exact Hy.
Qed.

Lemma filter_perm {A : Type} (f : A -> bool) (xs ys : list A) :
  Permutation xs ys -> Permutation (List.filter f xs) (List.filter f ys).
Proof.
  induction 1 as [|x xs ys _ IH|x y xs|xs ys zs _ IH1 _ IH2]; cbn [List.filter].
  - reflexivity.
  - destruct (f x); [apply perm_skip|]; exact IH.
  - destruct (f x), (f y); try reflexivity. apply perm_swap.
  - etransitivity; eassumption.
Qed.

(** In a subtree that satisfies the partition invariant, what the range
    search appends is the list of the nodes of the subtree, node first, then
    left, then right, restricted to the rectangle. *)
Lemma range_found_filter node min_point max_point depth :
  kd_inv node depth ->
  range_found node min_point max_point depth
  = List.filter (fun x => in_rect min_point max_point (fst x)) (nodes node).
Proof.
  revert depth. induction node as [|q e l IHl r IHr]; intros depth Hinv; [reflexivity|].
  destruct Hinv as (Hl & Hr & Il & Ir).
  cbn [range_found nodes List.filter fst]. rewrite List.filter_app.
  assert (HL : (if ext_leb (qcoord (depth mod 2) min_point) (Fin (coord (depth mod 2) q))
                then range_found l min_point max_point (depth + 1) else [])
               = List.filter (fun x => in_rect min_point max_point (fst x)) (nodes l)).
  { destruct (ext_leb (qcoord (depth mod 2) min_point) (Fin (coord (depth mod 2) q))) eqn:Hlo;
      [apply IHl; exact Il|].
    symmetry. apply filter_none. intros x Hx.
    destruct (in_rect min_point max_point (fst x)) eqn:Hin; [|reflexivity].
    destruct (in_rect_coord _ _ _ (depth mod 2)%nat Hin) as [H1 _].
    assert (Hlt : coord (depth mod 2) (fst x) < coord (depth mod 2) q).
    { rewrite List.Forall_forall in Hl. apply Hl. unfold points. apply in_map. exact Hx. }
    assert (H2 : ext_leb (Fin (coord (depth mod 2) (fst x))) (Fin (coord (depth mod 2) q)) = true)
      by (cbv [ext_leb]; apply Z.leb_le; lia).
    rewrite (ext_leb_trans _ _ _ H1 H2) in Hlo. discriminate. }
  assert (HR : (if ext_leb (Fin (coord (depth mod 2) q)) (qcoord (depth mod 2) max_point)
                then range_found r min_point max_point (depth + 1) else [])
               = List.filter (fun x => in_rect min_point max_point (fst x)) (nodes r)).
  { destruct (ext_leb (Fin (coord (depth mod 2) q)) (qcoord (depth mod 2) max_point)) eqn:Hhi;
      [apply IHr; exact Ir|].
    symmetry. apply filter_none. intros x Hx.
    destruct (in_rect min_point max_point (fst x)) eqn:Hin; [|reflexivity].
    destruct (in_rect_coord _ _ _ (depth mod 2)%nat Hin) as [_ H1].
    assert (Hge : coord (depth mod 2) q <= coord (depth mod 2) (fst x)).
    { rewrite List.Forall_forall in Hr. apply Hr. unfold points. apply in_map. exact Hx. }
    assert (H2 : ext_leb (Fin (coord (depth mod 2) q)) (Fin (coord (depth mod 2) (fst x))) = true)
      by (cbv [ext_leb]; apply Z.leb_le; lia).
    rewrite (ext_leb_trans _ _ _ H2 H1) in Hhi. discriminate. }
  rewrite HL, HR.
  destruct (in_rect min_point max_point q); reflexivity.
Qed.

(** Whatever the shape of the subtree, what the range search appends is a
    subsequence of the nodes of the subtree in node-left-right order. *)
Lemma range_found_sublist node min_point max_point depth :
  sublist (range_found node min_point max_point depth) (nodes node).
Proof.
  revert depth. induction node as [|q e l IHl r IHr]; intros depth; [constructor|].
  cbn [range_found nodes].
  assert (Htail : sublist
            ((if ext_leb (qcoord (depth mod 2) min_point) (Fin (coord (depth mod 2) q))
              then range_found l min_point max_point (depth + 1) else [])
             ++ (if ext_leb (Fin (coord (depth mod 2) q)) (qcoord (depth mod 2) max_point)
                 then range_found r min_point max_point (depth + 1) else []))
            (nodes l ++ nodes r)).
  { apply sublist_app.
    - destruct (ext_leb _ _); [apply IHl|apply sublist_nil_l].
    - destruct (ext_leb _ _); [apply IHr|apply sublist_nil_l]. }
  destruct (in_rect min_point max_point q); cbn [app].
  - apply sublist_skip. exact Htail.
  - apply sublist_cons. exact Htail.
Qed.

(** *** Deletion on any tree *)

Lemma delete_recursive_any node pt depth :
  exists node' b,
    _delete_recursive node pt depth = Some (node', b)
    /\ (if b then In pt (points node) else node' = node)
    /\ incl (nodes node') (nodes node)
    /\ (length (nodes node') <= length (nodes node) <= S (length (nodes node')))%nat.
Proof.
  revert pt depth. induction node as [|q e l IHl r IHr]; intros pt depth.
  - exists Nil, false. repeat split; [apply incl_refl|simpl; lia|simpl; lia].
  - cbn [_delete_recursive]. rewrite points_node.
    destruct (point_eqb q pt) eqn:Hq.
    + apply point_eqb_eq in Hq. subst q.
      destruct l as [|lq le ll lr], r as [|rq re rl rr].
      * exists Nil, true. split; [reflexivity|]. split; [left; reflexivity|].
        split; [apply incl_nil_l|simpl; lia].
      * destruct (find_min_is_Some rq re rl rr (depth mod 2)) as [m Hm]. rewrite Hm.
        cbn [mbind option_bind].
        destruct (IHr (fst m) (depth + 1)%nat) as (r' & b & Hdel & _ & Hincl & Hsize).
        rewrite Hdel. cbn [mbind option_bind fst].
        exists (Node (fst m) (snd m) Nil r'), true.
        split; [reflexivity|]. split; [left; reflexivity|]. split.
        -- cbn [nodes app]. apply incl_cons.
           ++ right. rewrite <- surjective_pairing. apply find_min_In in Hm. exact Hm.
           ++ apply incl_tl. exact Hincl.
        -- rewrite !length_nodes_node in *. cbn [nodes length] in *. lia.
      * destruct (find_min_is_Some lq le ll lr (depth mod 2)) as [m Hm]. rewrite Hm.
        cbn [mbind option_bind].
        destruct (IHl (fst m) (depth + 1)%nat) as (l' & b & Hdel & _ & Hincl & Hsize).
        rewrite Hdel. cbn [mbind option_bind fst].
        exists (Node (fst m) (snd m) l' Nil), true.
        split; [reflexivity|]. split; [left; reflexivity|]. split.
        -- cbn [nodes]. rewrite !app_nil_r. apply incl_cons.
           ++ right. rewrite <- surjective_pairing. apply find_min_In in Hm. exact Hm.
           ++ apply incl_tl. exact Hincl.
        -- rewrite !length_nodes_node in *. cbn [nodes length] in *. lia.
      * destruct (find_min_is_Some rq re rl rr (depth mod 2)) as [m Hm]. rewrite Hm.
        cbn [mbind option_bind].
        destruct (IHr (fst m) (depth + 1)%nat) as (r' & b & Hdel & _ & Hincl & Hsize).
        rewrite Hdel. cbn [mbind option_bind fst].
        exists (Node (fst m) (snd m) (Node lq le ll lr) r'), true.
        split; [reflexivity|]. split; [left; reflexivity|]. split.
        -- change (nodes (Node pt e (Node lq le ll lr) (Node rq re rl rr)))
             with ((pt, e) :: nodes (Node lq le ll lr) ++ nodes (Node rq re rl rr)).
           change (nodes (Node (fst m) (snd m) (Node lq le ll lr) r'))
             with ((fst m, snd m) :: nodes (Node lq le ll lr) ++ nodes r').
           apply incl_cons.
           ++ right. apply in_or_app. right. rewrite <- surjective_pairing.
              apply find_min_In in Hm. exact Hm.
           ++ apply incl_tl. apply incl_app; [apply incl_appl, incl_refl|].
              apply incl_appr. exact Hincl.
        -- rewrite (length_nodes_node pt e), (length_nodes_node (fst m) (snd m)). lia.
    + destruct (coord (depth mod 2) pt <? coord (depth mod 2) q).
      * destruct (IHl pt (depth + 1)%nat) as (l' & b & Hdel & Hb & Hincl & Hsize).
        rewrite Hdel. cbn [mbind option_bind fst snd].
        exists (Node q e l' r), b. split; [reflexivity|]. split.
        { destruct b; [right; apply in_or_app; left; exact Hb|subst l'; reflexivity]. }
        split.
        -- cbn [nodes]. apply incl_cons; [left; reflexivity|]. apply incl_tl.
           apply incl_app; [apply incl_appl; exact Hincl|apply incl_appr, incl_refl].
        -- rewrite !length_nodes_node. lia.
      * destruct (IHr pt (depth + 1)%nat) as (r' & b & Hdel & Hb & Hincl & Hsize).
        rewrite Hdel. cbn [mbind option_bind fst snd].
        exists (Node q e l r'), b. split; [reflexivity|]. split.
        { destruct b; [right; apply in_or_app; right; exact Hb|subst r'; reflexivity]. }
        split.
        -- cbn [nodes]. apply incl_cons; [left; reflexivity|]. apply incl_tl.
           apply incl_app; [apply incl_appl, incl_refl|apply incl_appr; exact Hincl].
        -- rewrite !length_nodes_node. lia.
Qed.

(** *** Deletion on a tree that satisfies the partition invariant *)

Lemma delete_recursive_points node pt depth :
  kd_inv node depth -> In pt (points node) ->
  exists node',
    _delete_recursive node pt depth = Some (node', true)
    /\ Permutation (points node) (pt :: points node').
Proof.
  revert pt depth. induction node as [|q e l IHl r IHr]; intros pt depth Hinv Hin.
  - destruct Hin.
  - destruct Hinv as (Hl & Hr & Il & Ir). rewrite points_node in Hin.
    cbn [_delete_recursive].
    destruct (point_eqb q pt) eqn:Hq.
    + apply point_eqb_eq in Hq. subst q.
      destruct l as [|lq le ll lr], r as [|rq re rl rr].
      * exists Nil. split; reflexivity.
      * destruct (find_min_is_Some rq re rl rr (depth mod 2)) as [m Hm]. rewrite Hm.
        cbn [mbind option_bind].
        destruct (IHr (fst m) (depth + 1)%nat Ir) as (r' & Hdel & Hperm).
        { unfold points. apply in_map. apply find_min_In in Hm. exact Hm. }
        rewrite Hdel. cbn [mbind option_bind fst]. eexists. split; [reflexivity|].
        rewrite (points_node pt e), (points_node (fst m) (snd m)).
        change (points (@Nil Data)) with (@nil point). cbn [app].
        apply perm_skip. exact Hperm.
      * destruct (find_min_is_Some lq le ll lr (depth mod 2)) as [m Hm]. rewrite Hm.
        cbn [mbind option_bind].
        destruct (IHl (fst m) (depth + 1)%nat Il) as (l' & Hdel & Hperm).
        { unfold points. apply in_map. apply find_min_In in Hm. exact Hm. }
        rewrite Hdel. cbn [mbind option_bind fst]. eexists. split; [reflexivity|].
        rewrite (points_node pt e), (points_node (fst m) (snd m)).
        change (points (@Nil Data)) with (@nil point). rewrite !app_nil_r.
        apply perm_skip. exact Hperm.
      * destruct (find_min_is_Some rq re rl rr (depth mod 2)) as [m Hm]. rewrite Hm.
        cbn [mbind option_bind].
        destruct (IHr (fst m) (depth + 1)%nat Ir) as (r' & Hdel & Hperm).
        { unfold points. apply in_map. apply find_min_In in Hm. exact Hm. }
        rewrite Hdel. cbn [mbind option_bind fst]. eexists. split; [reflexivity|].
        rewrite (points_node pt e), (points_node (fst m) (snd m)).
        apply perm_skip. rewrite Hperm. symmetry. apply Permutation_middle.
    + apply point_eqb_neq in Hq.
      destruct Hin as [Hin|Hin]; [congruence|].
      apply in_app_or in Hin.
      rewrite List.Forall_forall in Hl, Hr.
      destruct (coord (depth mod 2) pt <? coord (depth mod 2) q) eqn:Hcmp.
      * apply Z.ltb_lt in Hcmp.
        destruct Hin as [Hin|Hin]; [|apply Hr in Hin; lia].
        destruct (IHl pt (depth + 1)%nat Il Hin) as (l' & Hdel & Hperm).
        rewrite Hdel. cbn [mbind option_bind fst snd]. eexists. split; [reflexivity|].
        rewrite (points_node q e l), (points_node q e l'). rewrite Hperm. cbn [app].
        apply perm_swap.
      * apply Z.ltb_ge in Hcmp.
        destruct Hin as [Hin|Hin]; [apply Hl in Hin; lia|].
        destruct (IHr pt (depth + 1)%nat Ir Hin) as (r' & Hdel & Hperm).
        rewrite Hdel. cbn [mbind option_bind fst snd]. eexists. split; [reflexivity|].
        rewrite (points_node q e l r), (points_node q e l r'). rewrite Hperm.
        rewrite perm_swap. apply perm_skip.
        symmetry. apply Permutation_middle.
Qed.

(** *** Insertion leaves the nodes in place *)

Lemma insert_recursive_sublist node pt data depth :
  sublist (nodes node) (nodes (_insert_recursive node pt data depth)).
Proof.
  revert depth. induction node as [|q e l IHl r IHr]; intros depth.
  - apply sublist_nil_l.
  - cbn [_insert_recursive].
    destruct (coord (depth mod 2) pt <? coord (depth mod 2) q); cbn [nodes];
      apply sublist_skip, sublist_app; try reflexivity; [apply IHl|apply IHr].
Qed.

Lemma insert_recursive_height node pt data depth :
  (height node <= height (_insert_recursive node pt data depth) <= S (height node))%nat.
Proof.
  revert depth. induction node as [|q e l IHl r IHr]; intros depth.
  - simpl. lia.
  - cbn [_insert_recursive].
    destruct (coord (depth mod 2) pt <? coord (depth mod 2) q); cbn [height].
    + specialize (IHl (depth + 1)%nat). lia.
    + specialize (IHr (depth + 1)%nat). lia.
Qed.

(** *** The nodes the nearest-neighbour search visits *)


End MoreTheory.

Section MoreStatements.

Context {Data : Type}.

(** X1.  Inserting into a tree that satisfies the partition invariant gives
    a tree that satisfies it. *)
Theorem insert_keeps_partition_invariant (t : KDTree Data) (pt : point) (data : Data) :
  kd_inv (root t) 0 -> kd_inv (root (insert t pt data)) 0.
Proof. intros Hinv. apply insert_recursive_inv. exact Hinv. Qed.

(** X2.  On a tree that satisfies the partition invariant, [range_search]
    returns the stored pairs whose point lies in the rectangle, each once, in
    the order node, left subtree, right subtree. *)
Theorem range_search_valid_tree_is_filter (t : KDTree Data) (min_point max_point : qpoint) :
  kd_inv (root t) 0 ->
  range_search t min_point max_point
  = List.filter (fun x => in_rect min_point max_point (fst x)) (nodes (root t)).
Proof.
  intros Hinv. unfold range_search. rewrite range_search_recursive_app. cbn [app].
  apply range_found_filter. exact Hinv.
Qed.

(** X3.  On every tree, whether it satisfies the partition invariant or not,
    what [range_search] returns is a subsequence of the stored pairs in the
    order node, left subtree, right subtree (so no node is returned twice),
    and every returned point lies in the rectangle. *)
Theorem range_search_any_tree_sound (t : KDTree Data) (min_point max_point : qpoint) :
  sublist (range_search t min_point max_point) (nodes (root t))
  /\ Forall (fun x => in_rect min_point max_point (fst x) = true)
       (range_search t min_point max_point).
Proof.
  unfold range_search. rewrite range_search_recursive_app. cbn [app]. split.
  - apply range_found_sublist.
  - apply List.Forall_forall. intros x Hx. apply range_found_sound in Hx. apply Hx.
Qed.

(** X5.  On every tree, [nearest_neighbor] raises nothing but
    [OverflowError], and this only if the squared distance of some stored
    point is [2 ^ 1023] or more; it returns nothing exactly when the tree is
    empty; otherwise the pair returned is stored in the tree, the distance
    returned is the binary64 distance that [math.sqrt] gives for the
    returned point, and it is not greater than the one of the point at the
    root. *)
Theorem nearest_neighbor_any_tree_stored (t : KDTree Data) (target : point) :
  match Double.nearest_neighbor t target with
  | Double.Raises ex =>
      ex = Double.OverflowError
      /\ exists x, In x (nodes (root t))
                   /\ Double.euclid (fst x) target = Double.Raises Double.OverflowError
                   /\ 2 ^ 1023 <= sqdist (fst x) target
  | Double.Returns None => root t = Nil
  | Double.Returns (Some (p, d, dd)) =>
      In (p, d) (nodes (root t)) /\ Double.euclid p target = Double.Returns dd
      /\ match root t with
         | Nil => False
         | Node q _ _ _ =>
             exists dq, Double.euclid q target = Double.Returns dq
                        /\ Double.dist_leb dd dq = true
         end
  end.
Proof. apply double_nearest_neighbor_stored. Qed.

(** X6.  On a tree that satisfies the partition invariant, [delete] of a
    stored point returns true, and the points of the tree afterwards are the
    points before less one occurrence of the deleted point. *)
Theorem delete_valid_tree_removes_point (t : KDTree Data) (pt : point) :
  kd_inv (root t) 0 -> In pt (points (root t)) ->
  exists t',
    delete t pt = Some (t', true)
    /\ Permutation (points (root t)) (pt :: points (root t')).
Proof.
  intros Hinv Hin.
  destruct (delete_recursive_points (root t) pt 0 Hinv Hin) as (node' & Hdel & Hperm).
  exists (mkTree node'). unfold delete. rewrite Hdel. split; [reflexivity|exact Hperm].
Qed.

(** X7.  On every tree [delete] returns (the exception of [_find_min] never
    escapes).  If it returns false the tree is unchanged; if it returns true
    the point was stored.  In both cases every pair stored afterwards was
    stored before, and the number of nodes has gone down by at most one. *)
Theorem delete_any_tree_safe (t : KDTree Data) (pt : point) :
  exists t' b,
    delete t pt = Some (t', b)
    /\ (if b then In pt (points (root t)) else t' = t)
    /\ incl (nodes (root t')) (nodes (root t))
    /\ (length (nodes (root t')) <= length (nodes (root t))
        <= S (length (nodes (root t'))))%nat.
Proof.
  destruct (delete_recursive_any (root t) pt 0) as (node' & b & Hdel & Hb & Hincl & Hsize).
  exists (mkTree node'), b. unfold delete. rewrite Hdel.
  split; [reflexivity|]. split; [|split; assumption].
  destruct b; [exact Hb|]. cbn [fst] in *. subst node'. destruct t. reflexivity.
Qed.

(** X8.  [_find_min] raises its exception exactly on an absent node; on a
    present node it returns, for either target axis, a node of the subtree
    it was given. *)
Theorem find_min_result_in_subtree (node : KDNode Data) (axis : nat) :
  match _find_min node axis with
  | None => node = Nil
  | Some m => node <> Nil /\ In m (nodes node)
  end.
Proof.
  destruct (_find_min node axis) as [m|] eqn:Hm.
  - split; [intros ->; discriminate|]. apply find_min_In in Hm. exact Hm.
  - destruct node as [|q e l r]; [reflexivity|].
    destruct (find_min_is_Some q e l r axis) as [m Hm']. congruence.
Qed.

(** X9.  With target axis 1, [_find_min] returns a node whose second
    coordinate is the least of the subtree, on every subtree, whether it
    satisfies the partition invariant or not. *)
Theorem find_min_axis1_minimum (node : KDNode Data) :
  match _find_min node 1 with
  | None => node = Nil
  | Some m =>
      In m (nodes node)
      /\ Forall (fun p => snd (fst m) <= snd p) (points node)
  end.
Proof.
  pose proof (find_min_result_in_subtree node 1) as H.
  destruct (_find_min node 1) as [m|] eqn:Hm; [|exact H].
  split; [apply H|]. exact (find_min_axis1_minimal node m Hm).
Qed.

(** X10.  After a point has been inserted into a tree, valid or not,
    [nearest_neighbor] of that very point returns a node stored at that
    point, at distance zero, unless it raises [OverflowError] because the
    squared distance of some stored point to it is [2 ^ 1023] or more. *)
Theorem insert_then_nearest_neighbor (t : KDTree Data) (pt : point) (data : Data) :
  match Double.nearest_neighbor (insert t pt data) pt with
  | Double.Raises ex =>
      ex = Double.OverflowError
      /\ exists x, In x (nodes (root (insert t pt data)))
                   /\ Double.euclid (fst x) pt = Double.Raises Double.OverflowError
                   /\ 2 ^ 1023 <= sqdist (fst x) pt
  | Double.Returns None => False
  | Double.Returns (Some (p, d, dd)) =>
      p = pt /\ In (pt, d) (nodes (root (insert t pt data)))
      /\ dd = SpecFloat.S754_zero false
  end.
Proof. apply double_nearest_neighbor_after_insert. Qed.

(** X11.  After a point has been inserted into a tree that satisfies the
    partition invariant, [delete] of that point returns true and leaves the
    points the tree held before the insertion. *)
Theorem insert_then_delete (t : KDTree Data) (pt : point) (data : Data) :
  kd_inv (root t) 0 ->
  exists t',
    delete (insert t pt data) pt = Some (t', true)
    /\ Permutation (points (root t')) (points (root t)).
Proof.
  intros Hinv.
  assert (Hinv' : kd_inv (root (insert t pt data)) 0) by (apply insert_recursive_inv; exact Hinv).
  assert (Hperm : Permutation (points (root (insert t pt data))) (pt :: points (root t)))
    by apply points_insert_perm.
  assert (Hin : In pt (points (root (insert t pt data)))).
  { apply (Permutation_in (l := pt :: points (root t))); [symmetry; exact Hperm|].
    left. reflexivity. }
  destruct (delete_recursive_points _ pt 0 Hinv' Hin) as (node' & Hdel & Hperm').
  exists (mkTree node'). unfold delete. rewrite Hdel. split; [reflexivity|].
  cbn [root]. apply (Permutation_cons_inv (a := pt)).
  rewrite <- Hperm'. exact Hperm.
Qed.

(** X12.  A tree built from the empty tree by insertions alone satisfies the
    partition invariant; [range_search] on it returns exactly the inserted
    pairs whose point lies in the rectangle; [nearest_neighbor] raises
    nothing but [OverflowError], and this only if the squared distance of
    some inserted point is [2 ^ 1023] or more, returns nothing only if
    nothing was inserted, and otherwise returns an inserted pair with the
    binary64 distance computed for it. *)
Theorem inserts_then_queries (items : list (point * Data))
    (min_point max_point : qpoint) (target : point) :
  kd_inv (root (insert_all items empty_tree)) 0
  /\ Permutation (range_search (insert_all items empty_tree) min_point max_point)
       (List.filter (fun x => in_rect min_point max_point (fst x)) items)
  /\ match Double.nearest_neighbor (insert_all items empty_tree) target with
     | Double.Raises ex =>
         ex = Double.OverflowError
         /\ exists x, In x items
                      /\ Double.euclid (fst x) target = Double.Raises Double.OverflowError
                      /\ 2 ^ 1023 <= sqdist (fst x) target
     | Double.Returns None => items = []
     | Double.Returns (Some (p, d, dd)) =>
         In (p, d) items /\ Double.euclid p target = Double.Returns dd
     end.
Proof.
  assert (Hinv : kd_inv (root (insert_all items empty_tree)) 0)
    by (apply insert_all_inv; exact I).
  pose proof (nodes_insert_all_perm items empty_tree) as Hperm. cbn [app] in Hperm.
  split; [exact Hinv|]. split.
  - unfold range_search. rewrite range_search_recursive_app. cbn [app].
    rewrite (range_found_filter _ min_point max_point 0 Hinv).
    apply filter_perm. exact Hperm.
  - pose proof (double_nearest_neighbor_stored (insert_all items empty_tree) target) as H.
    destruct (Double.nearest_neighbor (insert_all items empty_tree) target)
      as [[[[p d] dd]|]|ex].
    + destruct H as (Hin & Hdd & _). split; [|exact Hdd].
      apply (Permutation_in _ Hperm). exact Hin.
    + rewrite H in Hperm. apply Permutation_nil in Hperm. simpl in Hperm. exact Hperm.
    + destruct H as (-> & x & Hin & Hx). split; [reflexivity|].
      exists x. split; [|exact Hx].
      apply (Permutation_in _ Hperm). exact Hin.
Qed.

(** X13.  [insert] moves no node and changes none: the pairs stored before
    are found afterwards in the same node-left-right order, and the height of
    the tree grows by at most one. *)
Theorem insert_keeps_nodes_in_place (t : KDTree Data) (pt : point) (data : Data) :
  sublist (nodes (root t)) (nodes (root (insert t pt data)))
  /\ (height (root t) <= height (root (insert t pt data)) <= S (height (root t)))%nat.
Proof.
  split; [apply insert_recursive_sublist|apply insert_recursive_height].
Qed.


(** X20.  When the coordinates of the target and of every stored point are
    below [2 ^ 510] in absolute value, [nearest_neighbor] raises nothing:
    it returns nothing on the empty tree, and otherwise a stored pair with
    the binary64 distance computed for its point. *)
Theorem nearest_neighbor_returns_below_bound (t : KDTree Data) (target : point) :
  Z.abs (fst target) < 2 ^ 510 -> Z.abs (snd target) < 2 ^ 510 ->
  Forall (fun x => Z.abs (fst (fst x)) < 2 ^ 510 /\ Z.abs (snd (fst x)) < 2 ^ 510)
    (nodes (root t)) ->
  exists r,
    Double.nearest_neighbor t target = Double.Returns r
    /\ match r with
       | None => root t = Nil
       | Some (p, d, dd) =>
           In (p, d) (nodes (root t)) /\ Double.euclid p target = Double.Returns dd
       end.
Proof.
  intros T1 T2 Hall.
  pose proof (double_nearest_neighbor_stored t target) as H.
  destruct (Double.nearest_neighbor t target) as [[[[p d] dd]|]|ex].
  - eexists. split; [reflexivity|]. destruct H as (Hin & Hdd & _).
    split; [exact Hin|exact Hdd].
  - eexists. split; [reflexivity|exact H].
  - exfalso. destruct H as (_ & x & Hin & _ & Hbig).
    rewrite List.Forall_forall in Hall. destruct (Hall x Hin) as [X1 X2].
    pose proof (sqdist_below (fst x) target X1 X2 T1 T2). lia.
Qed.

End MoreStatements.

(** * The application *)

Section AppTheory.

Import MapSearch.


Lemma add_objects_fields (objs : list MapObject) (app : MapSearchApp) :
  objects (add_objects objs app) = objects app ++ objs
  /\ kd_tree (add_objects objs app) = insert_all (map entry objs) (kd_tree app)
  /\ object_types (add_objects objs app)
     = list_to_set (map type objs) ∪ object_types app.
Proof.
  revert app. induction objs as [|o objs IH]; intros app.
  - cbn. rewrite app_nil_r. repeat split. rewrite (left_id_L ∅ (∪)). reflexivity.
  - destruct (IH (add_object app o)) as (H1 & H2 & H3).
    change (add_objects (o :: objs) app) with (add_objects objs (add_object app o)).
    rewrite H1, H2, H3. cbn [add_object objects kd_tree object_types map].
    rewrite <- app_assoc. repeat split. cbn [list_to_set].
    rewrite (comm_L (∪) {[type o]} (list_to_set (map type objs))).
    rewrite (assoc_L (∪)). reflexivity.
Qed.



Section WithDistance.

Variable Km : Type.
Variable calculate_distance : Z -> Z -> Z -> Z -> Km.
Variable km_leb : Km -> Km -> bool.
Variable km_of : Z -> Km.



Lemma insert_by_distance_sorted (r : MapObject * Km) (rs : list (MapObject * Km)) :
  (forall a b, km_leb a b = true \/ km_leb b a = true) ->
  Sorted (fun a b => km_leb (snd a) (snd b) = true) rs ->
  Sorted (fun a b => km_leb (snd a) (snd b) = true) (insert_by_distance Km km_leb r rs).
Proof.
  intros Htotal Hsorted. induction Hsorted as [|r' rs Hrs IH Hhd];
    cbn [insert_by_distance].
  - repeat constructor.
  - destruct (km_leb (snd r') (snd r)) eqn:Hle.
    + constructor; [exact IH|].
      destruct rs as [|r'' rs']; cbn [insert_by_distance].
      * constructor. exact Hle.
      * destruct (km_leb (snd r'') (snd r)); constructor; [|exact Hle].
        inversion Hhd. assumption.
    + constructor; [constructor; assumption|]. constructor.
      destruct (Htotal (snd r) (snd r')) as [H|H]; [exact H|congruence].
Qed.

Lemma sort_by_distance_sorted (rs : list (MapObject * Km)) :
  (forall a b, km_leb a b = true \/ km_leb b a = true) ->
  Sorted (fun a b => km_leb (snd a) (snd b) = true) (sort_by_distance Km km_leb rs).
Proof.
  intros Htotal. unfold sort_by_distance.
  assert (H : forall acc,
             Sorted (fun a b => km_leb (snd a) (snd b) = true) acc ->
             Sorted (fun a b => km_leb (snd a) (snd b) = true)
               (fold_left (fun acc r => insert_by_distance Km km_leb r acc) rs acc)).
  { induction rs as [|r rs IH]; intros acc Hacc; cbn [fold_left]; [exact Hacc|].
    apply IH. apply insert_by_distance_sorted; assumption. }
  apply H. constructor.
Qed.

End WithDistance.

End AppTheory.

Section AppStatements.

Import MapSearch.

(** X15.  After any list of objects has been added to a new application,
    the list of objects is that list, the tree holds exactly one node per
    object, stored under the coordinates of the object, the tree satisfies
    the partition invariant, and the set of types holds exactly the types of
    the objects. *)
Theorem add_objects_keeps_index_in_step (objs : list MapObject) :
  let app := add_objects objs new_app in
  objects app = objs
  /\ Permutation (nodes (root (kd_tree app))) (map entry objs)
  /\ kd_inv (root (kd_tree app)) 0
  /\ (forall ty, ty ∈ object_types app <-> exists o, In o objs /\ type o = ty).
Proof.
  cbn zeta. destruct (add_objects_fields objs new_app) as (H1 & H2 & H3).
  rewrite H1, H2, H3. cbn [new_app objects kd_tree object_types List.app].
  split; [reflexivity|]. split; [|split].
  - apply (nodes_insert_all_perm (map entry objs) empty_tree).
  - apply insert_all_inv. exact I.
  - intros ty. rewrite (right_id_L ∅ (∪)), elem_of_list_to_set, list_elem_of_In, in_map_iff.
    split; intros (o & Ho1 & Ho2); exists o; auto.
Qed.

Section WithDistance.

Variable Km : Type.
Variable calculate_distance : Z -> Z -> Z -> Z -> Km.
Variable km_leb : Km -> Km -> bool.
Variable km_of : Z -> Km.



(** X18.  When the order on distances is total and transitive, the list
    [search_in_area] returns is sorted: the distance of every entry is at
    most the distance of every later entry. *)
Theorem search_in_area_sorted (app : MapSearchApp) (center_x center_y radius : Z)
    (obj_type : option string) :
  (forall a b, km_leb a b = true \/ km_leb b a = true) ->
  (forall a b c, km_leb a b = true -> km_leb b c = true -> km_leb a c = true) ->
  StronglySorted (fun a b => km_leb (snd a) (snd b) = true)
    (search_in_area Km calculate_distance km_leb km_of app center_x center_y radius obj_type).
Proof.
  intros Htotal Htrans. unfold search_in_area.
  apply Sorted_StronglySorted.
  - intros a b c Hab Hbc. exact (Htrans _ _ _ Hab Hbc).
  - apply sort_by_distance_sorted. exact Htotal.
Qed.

(** X19.  With a negative radius [search_in_area] returns the empty list,
    whatever the application holds. *)
Theorem search_in_area_negative_radius (app : MapSearchApp) (center_x center_y radius : Z)
    (obj_type : option string) :
  radius < 0 ->
  search_in_area Km calculate_distance km_leb km_of app center_x center_y radius obj_type
  = [].
Proof.
  intros Hneg. unfold search_in_area.
  assert (Hempty : range_search (kd_tree app)
                     (Fin (center_x - radius), Fin (center_y - radius))
                     (Fin (center_x + radius), Fin (center_y + radius)) = []).
  { unfold range_search. rewrite range_search_recursive_app. cbn [List.app].
    apply range_found_nil. intros p. apply (in_rect_inverted _ _ 0).
    cbv [qcoord fst ext_leb]. apply Z.leb_gt. lia. }
  rewrite Hempty. destruct (given obj_type); reflexivity.
Qed.

End WithDistance.

End AppStatements.

(** ** Instances of the further statements *)

Lemma kd_inv_tree_three : kd_inv (root tree_three) 0.
Proof. apply kd_invb_spec. reflexivity. Defined.

Lemma insert_keeps_partition_invariant_witness :
  kd_inv (root tree_three) 0 /\ kd_inv (root (insert tree_three (4, 4) 7%nat)) 0.
Proof.
  split; [exact kd_inv_tree_three|].
  exact (insert_keeps_partition_invariant tree_three (4, 4) 7%nat kd_inv_tree_three).
Defined.

Lemma range_search_valid_tree_is_filter_witness :
  kd_inv (root tree_three) 0
  /\ range_search tree_three (Fin 3, NegInf) (PosInf, Fin 4)
     = List.filter (fun x => in_rect (Fin 3, NegInf) (PosInf, Fin 4) (fst x))
         (nodes (root tree_three)).
Proof.
  split; [exact kd_inv_tree_three|].
  exact (range_search_valid_tree_is_filter tree_three _ _ kd_inv_tree_three).
Defined.

Lemma delete_valid_tree_removes_point_witness :
  kd_inv (root tree_three) 0 /\ In (9, 1) (points (root tree_three))
  /\ exists t',
      delete tree_three (9, 1) = Some (t', true)
      /\ Permutation (points (root tree_three)) ((9, 1) :: points (root t')).
Proof.
  assert (Hin : In (9, 1) (points (root tree_three)))
    by (right; right; left; reflexivity).
  split; [exact kd_inv_tree_three|]. split; [exact Hin|].
  exact (delete_valid_tree_removes_point tree_three (9, 1) kd_inv_tree_three Hin).
Defined.

Lemma nearest_neighbor_returns_below_bound_witness :
  Z.abs (fst (8, 3)) < 2 ^ 510 /\ Z.abs (snd (8, 3)) < 2 ^ 510
  /\ Forall (fun x : point * nat =>
               Z.abs (fst (fst x)) < 2 ^ 510 /\ Z.abs (snd (fst x)) < 2 ^ 510)
       (nodes (root tree_three))
  /\ exists r,
      Double.nearest_neighbor tree_three (8, 3) = Double.Returns r
      /\ match r with
         | None => root tree_three = Nil
         | Some (p, d, dd) =>
             In (p, d) (nodes (root tree_three))
             /\ Double.euclid p (8, 3) = Double.Returns dd
         end.
Proof.
  assert (T1 : Z.abs (fst (8, 3)) < 2 ^ 510) by (vm_compute; reflexivity).
  assert (T2 : Z.abs (snd (8, 3)) < 2 ^ 510) by (vm_compute; reflexivity).
  assert (Hall : Forall (fun x : point * nat =>
                           Z.abs (fst (fst x)) < 2 ^ 510 /\ Z.abs (snd (fst x)) < 2 ^ 510)
                   (nodes (root tree_three))).
  { simpl. repeat (constructor; [split; vm_compute; reflexivity|]). constructor. }
  split; [exact T1|]. split; [exact T2|]. split; [exact Hall|].
  exact (nearest_neighbor_returns_below_bound tree_three (8, 3) T1 T2 Hall).
Defined.

Lemma insert_then_delete_witness :
  kd_inv (root tree_three) 0
  /\ exists t',
      delete (insert tree_three (4, 4) 7%nat) (4, 4) = Some (t', true)
      /\ Permutation (points (root t')) (points (root tree_three)).
Proof.
  split; [exact kd_inv_tree_three|].
  exact (insert_then_delete tree_three (4, 4) 7%nat kd_inv_tree_three).
Defined.

Lemma leb_total (a b : Z) : (a <=? b) = true \/ (b <=? a) = true.
Proof. rewrite !Z.leb_le. lia. Defined.

Lemma leb_trans (a b c : Z) : (a <=? b) = true -> (b <=? c) = true -> (a <=? c) = true.
Proof. rewrite !Z.leb_le. lia. Defined.

Lemma search_in_area_sorted_witness :
  (forall a b : Z, (a <=? b) = true \/ (b <=? a) = true)
  /\ (forall a b c : Z, (a <=? b) = true -> (b <=? c) = true -> (a <=? c) = true)
  /\ StronglySorted (fun a b => (snd a <=? snd b) = true)
       (MapSearch.search_in_area Z taxicab Z.leb (fun z => z) app_three 6 3 5 None).
Proof.
  split; [exact leb_total|]. split; [exact leb_trans|].
  exact (search_in_area_sorted Z taxicab Z.leb (fun z => z) app_three 6 3 5 None
           leb_total leb_trans).
Defined.

Lemma search_in_area_negative_radius_witness :
  -1 < 0
  /\ MapSearch.search_in_area Z taxicab Z.leb (fun z => z) app_three 6 3 (-1) None = [].
Proof.
  assert (H : -1 < 0) by lia.
  split; [exact H|].
  exact (search_in_area_negative_radius Z taxicab Z.leb (fun z => z) app_three 6 3 (-1) None H).
Defined.

(** The application on the three objects. *)
Example app_three_queries :
  MapSearch.search_in_area Z taxicab Z.leb (fun z => z) app_three 6 3 5 None
  = [(cafe_b, 2); (shop_a, 4); (shop_c, 5)]
  /\ MapSearch.search_in_area Z taxicab Z.leb (fun z => z) app_three 6 3 5 (Some "shop"%string)
     = [(shop_a, 4); (shop_c, 5)]
  /\ MapSearch.find_nearest Z taxicab app_three 6 3 (Some "shop"%string)
     = Double.Returns (Some (shop_c, 5))
  /\ MapSearch.find_nearest Z taxicab app_three 6 3 None
     = Double.Returns (Some (cafe_b, 2))
  /\ MapSearch.find_nearest Z taxicab app_three 6 3 (Some "bank"%string)
     = Double.Returns None.
Proof. vm_compute. repeat split. Qed.
